(** * Reaction-diffusion demo: periodic five-point Laplacian and time steppers

    Shallow embedding of [reaction-diffusion_demo.ipynb].

    Conventions of the embedding:
    - Python [float]s and NumPy [float64] entries are modelled by exact
      rationals [Q]; equality of values is [Qeq] ([==]).
    - Python [int]s are [Z].
    - Exceptions are modelled by the [result] monad below.
    - A SciPy sparse matrix is modelled by its shape and its entry function;
      the storage format (DIA, LIL, CSR) does not change the entries, so
      [tolil] and [todia] are the identity.
    - NumPy, SciPy and Python primitives ([numpy.ones], [sparse.spdiags],
      [sparse.kron], [sparse.eye], item assignment, [/]) are modelled with the
      error conditions the libraries document. *)

From Stdlib Require Import ZArith QArith Qfield List Lia Lqa Bool.
From Stdlib Require Import Setoid Morphisms Permutation.
Import ListNotations.

Local Open Scope Z_scope.

(** ** Exceptions *)

Inductive exn : Type :=
| ZeroDivisionError
| ValueError
| IndexError.

Inductive result (A : Type) : Type :=
| Ok (a : A)
| Raise (e : exn).

Arguments Ok {A} a.
Arguments Raise {A} e.

Definition bind {A B : Type} (c : result A) (k : A -> result B) : result B :=
  match c with
  | Ok a => k a
  | Raise e => Raise e
  end.

Notation "x <- c ;; k" := (bind c (fun x => k))
  (at level 61, c at next level, right associativity).

Definition raises {A : Type} (c : result A) : Prop := exists e, c = Raise e.

(** ** Python scalars *)

(** [x / y] on Python floats. *)
Definition pydiv (x y : Q) : result Q :=
  if Qeq_bool y 0 then Raise ZeroDivisionError else Ok (x / y)%Q.

(** [range(n)] *)
Definition range (n : Z) : list Z := map Z.of_nat (seq 0 (Z.to_nat n)).

(** [for i in range(...): s = body(i, s)] in the exception monad. *)
Fixpoint for_each {S : Type} (l : list Z) (body : Z -> S -> result S) (s : S)
  : result S :=
  match l with
  | [] => Ok s
  | i :: l' => s' <- body i s ;; for_each l' body s'
  end.

(** ** NumPy one-dimensional arrays *)

Definition ndarray : Type := list Q.

Definition item (x : ndarray) (j : Z) : Q := nth (Z.to_nat j) x 0%Q.

(** [numpy.ones(n)]: a negative dimension raises [ValueError]. *)
Definition numpy_ones (n : Z) : result ndarray :=
  if n <? 0 then Raise ValueError else Ok (repeat 1%Q (Z.to_nat n)).

Definition sumQ (f : Z -> Q) (l : list Z) : Q :=
  fold_right (fun j acc => (f j + acc)%Q) 0%Q l.

(** [numpy.sum(x)] *)
Definition vsum (x : ndarray) : Q := fold_right Qplus 0%Q x.

Fixpoint map2 (op : Q -> Q -> Q) (x y : ndarray) : ndarray :=
  match x, y with
  | a :: x', b :: y' => op a b :: map2 op x' y'
  | _, _ => []
  end.

(** Elementwise binary operation on two 1-D arrays with NumPy broadcasting:
    equal lengths, or one operand of length one; anything else raises. *)
Definition broadcast2 (op : Q -> Q -> Q) (x y : ndarray) : result ndarray :=
  if (length x =? length y)%nat then Ok (map2 op x y)
  else if (length x =? 1)%nat then Ok (map (op (hd 0%Q x)) y)
  else if (length y =? 1)%nat then Ok (map (fun a => op a (hd 0%Q y)) x)
  else Raise ValueError.

(** The operations the notebook applies to [U] and [V], which are Python
    floats at some call sites and NumPy arrays at others. *)
Class Numeric (T : Type) : Type := {
  scal : Q -> T -> T;             (* float * x *)
  offs : Q -> T -> T;             (* float + x *)
  rsub : Q -> T -> T;             (* float - x *)
  sqr : T -> T;                   (* x ** 2 *)
  mul : T -> T -> result T;       (* x * y *)
  add : T -> T -> result T        (* x + y *)
}.

#[export] Instance Numeric_float : Numeric Q := {
  scal := Qmult;
  offs := Qplus;
  rsub := Qminus;
  sqr := fun x => (x * x)%Q;
  mul := fun x y => Ok (x * y)%Q;
  add := fun x y => Ok (x + y)%Q
}.

#[export] Instance Numeric_ndarray : Numeric ndarray := {
  scal := fun k => map (Qmult k);
  offs := fun k => map (Qplus k);
  rsub := fun k => map (Qminus k);
  sqr := map (fun x => (x * x)%Q);
  mul := broadcast2 Qmult;
  add := broadcast2 Qplus
}.

(** ** Reaction terms (notebook cell 4) *)

Section Reaction.
Context {T : Type} `{Numeric T}.

(** [alpha * U * (1.0 - tau_1 * V**2) + V * (1.0 - tau_2 * U)] *)
Definition f_reaction (U V : T) (sigma tau_1 tau_2 alpha beta gamma : Q)
  : result T :=
  a <- mul (scal alpha U) (rsub 1 (scal tau_1 (sqr V))) ;;
  b <- mul V (rsub 1 (scal tau_2 U)) ;;
  add a b.

(** [beta * V * (1.0 + alpha * tau_1 / beta * U * V) + U * (gamma + tau_2 * V)] *)
Definition g_reaction (U V : T) (sigma tau_1 tau_2 alpha beta gamma : Q)
  : result T :=
  let bV := scal beta V in
  q <- pydiv (alpha * tau_1) beta ;;
  quv <- mul (scal q U) V ;;
  a <- mul bV (offs 1 quv) ;;
  b <- mul U (offs gamma (scal tau_2 V)) ;;
  add a b.

End Reaction.

(** ** SciPy sparse matrices *)

Record spmatrix : Type := {
  nrows : Z;
  ncols : Z;
  get : Z -> Z -> Q
}.

Definition inb (m n i j : Z) : bool :=
  (0 <=? i) && (i <? m) && (0 <=? j) && (j <? n).

Fixpoint has_dup (l : list Z) : bool :=
  match l with
  | [] => false
  | d :: l' => existsb (Z.eqb d) l' || has_dup l'
  end.

(** Entry [(i, j)] of the DIA data: row [k] of [data] lies on diagonal
    [diags[k]] and is indexed by column. *)
Fixpoint diag_entry (data : list ndarray) (diags : list Z) (i j : Z) : Q :=
  match data, diags with
  | row :: data', d :: diags' =>
      ((if j - i =? d then item row j else 0) + diag_entry data' diags' i j)%Q
  | _, _ => 0%Q
  end.

(** [sparse.spdiags(data, diags, m, n)]: the DIA constructor rejects a
    number of rows of [data] different from the number of offsets, and
    duplicate offsets. *)
Definition spdiags (data : list ndarray) (diags : list Z) (m n : Z)
  : result spmatrix :=
  if (m <? 0) || (n <? 0) then Raise ValueError
  else if negb (length data =? length diags)%nat then Raise ValueError
  else if has_dup diags then Raise ValueError
  else Ok {| nrows := m; ncols := n;
             get := fun i j =>
               if inb m n i j then diag_entry data diags i j else 0%Q |}.

(** [sparse.eye(n)] *)
Definition sparse_eye (n : Z) : spmatrix :=
  {| nrows := n; ncols := n;
     get := fun i j => if inb n n i j && (i =? j) then 1%Q else 0%Q |}.

(** [sparse.kron(A, B)] *)
Definition kron (A B : spmatrix) : spmatrix :=
  {| nrows := nrows A * nrows B; ncols := ncols A * ncols B;
     get := fun i j =>
       if inb (nrows A * nrows B) (ncols A * ncols B) i j
       then (get A (i / nrows B) (j / ncols B)
             * get B (i mod nrows B) (j mod ncols B))%Q
       else 0%Q |}.

Definition same_shape (A B : spmatrix) : bool :=
  (nrows A =? nrows B) && (ncols A =? ncols B).

(** [A + B] and [A - B]: inconsistent shapes raise [ValueError]. *)
Definition sp_add (A B : spmatrix) : result spmatrix :=
  if same_shape A B
  then Ok {| nrows := nrows A; ncols := ncols A;
             get := fun i j => (get A i j + get B i j)%Q |}
  else Raise ValueError.

Definition sp_sub (A B : spmatrix) : result spmatrix :=
  if same_shape A B
  then Ok {| nrows := nrows A; ncols := ncols A;
             get := fun i j => (get A i j - get B i j)%Q |}
  else Raise ValueError.

(** [k * A] for a float [k] *)
Definition sp_scale (k : Q) (A : spmatrix) : spmatrix :=
  {| nrows := nrows A; ncols := ncols A;
     get := fun i j => (k * get A i j)%Q |}.

(** [A /= k] for a float [k] *)
Definition sp_div (A : spmatrix) (k : Q) : spmatrix :=
  {| nrows := nrows A; ncols := ncols A;
     get := fun i j => (get A i j / k)%Q |}.

(** [A[i, j] = v] on a LIL matrix: negative indices count from the end,
    an index out of range raises [IndexError]. *)
Definition setitem (A : spmatrix) (i j : Z) (v : Q) : result spmatrix :=
  let i' := if i <? 0 then i + nrows A else i in
  let j' := if j <? 0 then j + ncols A else j in
  if inb (nrows A) (ncols A) i' j'
  then Ok {| nrows := nrows A; ncols := ncols A;
             get := fun a b =>
               if (a =? i') && (b =? j') then v else get A a b |}
  else Raise IndexError.

(** [A * x] for a sparse [A] and a 1-D array [x]: the matrix-vector
    product; a length different from the number of columns raises. *)
Definition row_dot (A : spmatrix) (x : ndarray) (i : Z) : Q :=
  sumQ (fun j => (get A i j * item x j)%Q) (range (ncols A)).

Definition matvec (A : spmatrix) (x : ndarray) : result ndarray :=
  if Z.of_nat (length x) =? ncols A
  then Ok (map (row_dot A x) (range (nrows A)))
  else Raise ValueError.

Definition todense (A : spmatrix) : list (list Q) :=
  map (fun i => map (get A i) (range (ncols A))) (range (nrows A)).

(** ** Spatial discretization (notebook cell 6) *)

Definition periodic_bc_body (m i : Z) (A_periodic : spmatrix)
  : result spmatrix :=
  A1 <- setitem A_periodic (i * m) ((i + 1) * m - 1) 1 ;;
  setitem A1 ((i + 1) * m - 1) (i * m) 1.

Definition laplacian_discretization (m : Z) : result spmatrix :=
  delta_x <- pydiv 2 (inject_Z (m + 1)) ;;
  (* Primary discretization *)
  e <- numpy_ones m ;;
  T <- spdiags [e; scal (-4) e; e] [-1; 0; 1] m m ;;
  S <- spdiags [e; e] [-1; 1] m m ;;
  let I := sparse_eye m in
  A <- sp_add (kron I T) (kron S I) ;;
  (* Construct periodic BCs *)
  e <- numpy_ones (m ^ 2) ;;
  A_periodic <- spdiags [e; e] [m - m ^ 2; m ^ 2 - m] (m ^ 2) (m ^ 2) ;;
  (* Left & right BCs *)
  A_periodic <- for_each (range m) (periodic_bc_body m) A_periodic ;;
  (* Combine two matrices *)
  A <- sp_add A A_periodic ;;
  Ok (sp_div A (delta_x ^ 2)).

(** ** Time stepping (notebook cells 8, 12, 13) *)

Definition D1_default : Q := 1 # 2.
Definition D2_default : Q := 1.

Definition reaction : Type := ndarray -> ndarray -> result ndarray.

(** [U + delta_t * (sigma * D * A * U + r)] *)
Definition euler_update (U : ndarray) (delta_t : Q) (A : spmatrix)
  (sigma D : Q) (r : result ndarray) : result ndarray :=
  AU <- matvec (sp_scale (sigma * D) A) U ;;
  R <- r ;;
  rhs <- add AU R ;;
  add U (scal delta_t rhs).

Definition forward_euler_step (U V : ndarray) (delta_t : Q) (A : spmatrix)
  (sigma : Q) (f g : reaction) (D1 D2 : Q) : result (ndarray * ndarray) :=
  U_new <- euler_update U delta_t A sigma D1 (f U V) ;;
  V_new <- euler_update V delta_t A sigma D2 (g U V) ;;
  Ok (U_new, V_new).

Definition forward_euler_reaction_step (U V : ndarray) (delta_t : Q)
  (f g : reaction) : result (ndarray * ndarray) :=
  FU <- f U V ;;
  U_new <- add U (scal delta_t FU) ;;
  GV <- g U V ;;
  V_new <- add V (scal delta_t GV) ;;
  Ok (U_new, V_new).


(** The explicit loop of [forward_euler_coupled_solver]: [n] calls of
    [forward_euler_step], each on the previous result. *)
Fixpoint forward_euler_iterate (n : nat) (U V : ndarray) (delta_t : Q)
  (A : spmatrix) (sigma : Q) (f g : reaction) (D1 D2 : Q)
  : result (ndarray * ndarray) :=
  match n with
  | O => Ok (U, V)
  | S n' =>
      s <- forward_euler_step U V delta_t A sigma f g D1 D2 ;;
      forward_euler_iterate n' (fst s) (snd s) delta_t A sigma f g D1 D2
  end.

(** The aliases [f = lambda U, V: f_reaction(U, V, sigma, ...)] of the
    two solvers. *)
Definition f_alias (sigma tau_1 tau_2 alpha beta gamma : Q) : reaction :=
  fun U V => f_reaction U V sigma tau_1 tau_2 alpha beta gamma.

Definition g_alias (sigma tau_1 tau_2 alpha beta gamma : Q) : reaction :=
  fun U V => g_reaction U V sigma tau_1 tau_2 alpha beta gamma.

(** A reaction term that is identically zero ([numpy.zeros_like(U)]). *)
Definition zero_reaction : reaction := fun U _ => Ok (map (fun _ => 0%Q) U).

(** Equality of arrays up to [Qeq]. *)
Definition veq (x y : ndarray) : Prop := Forall2 Qeq x y.

(** [linalg.spsolve(M, b)] is library code; it is specified by what it
    returns: an array [x] with [M * x = b]. *)
Definition solves (M : spmatrix) (b x : ndarray) : Prop :=
  exists y, matvec M x = Ok y /\ veq y b.

(** [sparse.eye(A.shape[0]) - delta_t * sigma * D * A] *)
Definition be_system (A : spmatrix) (delta_t sigma D : Q) : result spmatrix :=
  sp_sub (sparse_eye (nrows A)) (sp_scale (delta_t * sigma * D) A).

(** [backward_euler_diffusion_step] as a relation between its arguments and
    the pair it returns. *)
Definition backward_euler_diffusion_step (U V : ndarray) (A : spmatrix)
  (delta_t sigma D_1 D_2 : Q) (out : ndarray * ndarray) : Prop :=
  exists M1 M2,
    be_system A delta_t sigma D_1 = Ok M1 /\ solves M1 U (fst out) /\
    be_system A delta_t sigma D_2 = Ok M2 /\ solves M2 V (snd out).

(** One pass through the loop body of [imex_solver]:
    [U, V = backward_euler_diffusion_step(U, V, A, delta_t, sigma, D_1, D_2)]
    [U, V = forward_euler_step(U, V, delta_t, A, sigma, f, g)]
    The second call leaves [D1] and [D2] at their defaults. *)
Definition imex_solver_iteration (A : spmatrix) (delta_t sigma : Q)
  (f g : reaction) (D_1 D_2 : Q) (s s' : ndarray * ndarray) : Prop :=
  exists s1,
    backward_euler_diffusion_step (fst s) (snd s) A delta_t sigma D_1 D_2 s1 /\
    forward_euler_step (fst s1) (snd s1) delta_t A sigma f g
      D1_default D2_default = Ok s'.

(** ** Notions used by the statements *)

(** The mesh width used for the scaling, squared. *)
Definition delta_x2 (m : Z) : Q := ((2 / inject_Z (m + 1)) ^ 2)%Q.

(** The four periodic-grid neighbours of cell [i = r * m + c]: the cells
    [(r - 1 mod m, c)], [(r + 1 mod m, c)], [(r, c - 1 mod m)] and
    [(r, c + 1 mod m)]. *)
Definition nbr_up (m i : Z) : Z := ((i / m - 1) mod m) * m + i mod m.
Definition nbr_down (m i : Z) : Z := ((i / m + 1) mod m) * m + i mod m.
Definition nbr_left (m i : Z) : Z := (i / m) * m + (i mod m - 1) mod m.
Definition nbr_right (m i : Z) : Z := (i / m) * m + (i mod m + 1) mod m.

Definition neighbours (m i : Z) : list Z :=
  [nbr_up m i; nbr_down m i; nbr_left m i; nbr_right m i].

Definition is_neighbour (m i j : Z) : bool := existsb (Z.eqb j) (neighbours m i).

Definition ind (b : bool) : Q := if b then 1%Q else 0%Q.

(** Number of the four neighbour directions of [i] that land on [j]. *)
Definition hits (m i j : Z) : Q := sumQ (fun n => ind (j =? n)) (neighbours m i).

Definition row_sum (A : spmatrix) (i : Z) : Q :=
  sumQ (get A i) (range (ncols A)).

Definition nonzero (q : Q) : bool := negb (Qeq_bool q 0).

(** Number of non-zero entries of row [i]. *)
Definition row_nnz (A : spmatrix) (i : Z) : nat :=
  length (filter (fun j => nonzero (get A i j)) (range (ncols A))).

(** Number of off-diagonal entries of row [i] with value [v]. *)
Definition row_offdiag_count (A : spmatrix) (i : Z) (v : Q) : nat :=
  length (filter (fun j => negb (j =? i) && Qeq_bool (get A i j) v)
            (range (ncols A))).

Definition in_range (n i : Z) : Prop := 0 <= i < n.

Definition symmetric (A : spmatrix) : Prop :=
  forall i j, in_range (nrows A) i -> in_range (ncols A) j ->
    (get A i j == get A j i)%Q.

(** The constant array with all [n] entries equal to [c]. *)
Definition constant (n : Z) (c : Q) : ndarray := repeat c (Z.to_nat n).

(** The two entries that iteration [k] of the boundary loop assigns. *)
Definition bc_pair (m a b k : Z) : bool :=
  (a =? k * m) && (b =? (k + 1) * m - 1)
  || (a =? (k + 1) * m - 1) && (b =? k * m).

(** The stencil coefficient that couples cell [(r, c)] to cell [(r', c')],
    split as the construction splits it: [kron(I, T)], [kron(S, I)], the two
    wrap diagonals and the entries of the boundary loop. *)
Definition block_coef (m r c r' c' : Z) : Q :=
  (ind (r' =? r)
   * (ind (c' =? c - 1) + -4 * ind (c' =? c) + ind (c' =? c + 1))
   + ind (c' =? c) * (ind (r' =? r - 1) + ind (r' =? r + 1))
   + (ind (c' =? c)
      * (ind ((r =? m - 1) && (r' =? 0)) + ind ((r =? 0) && (r' =? m - 1)))
      + ind (r' =? r)
        * (ind ((c =? 0) && (c' =? m - 1)) + ind ((c =? m - 1) && (c' =? 0)))))%Q.

(** The entry the five-point description assigns to position [(i, j)]:
    [-4 / delta_x ** 2] on the diagonal, [1 / delta_x ** 2] at the four
    neighbours, [0] elsewhere. *)
Definition stencil_entry (m i j : Z) : Q :=
  if j =? i then (-4 / delta_x2 m)%Q
  else if is_neighbour m i j then (1 / delta_x2 m)%Q
  else 0%Q.

Definition five_point (m : Z) (A : spmatrix) : Prop :=
  nrows A = m * m /\ ncols A = m * m /\
  forall i j, in_range (m * m) i -> in_range (m * m) j ->
    (get A i j == stencil_entry m i j)%Q.

(** Entry [(i, j)] of a matrix that a computation returns. *)
Definition entry (c : result spmatrix) (i j : Z) : Q :=
  match c with
  | Ok A => get A i j
  | Raise _ => 0%Q
  end.

(** A reaction term that returns an array of the shape of its arguments. *)
Definition shape_preserving (f : reaction) : Prop :=
  forall U V F, length U = length V -> f U V = Ok F -> length F = length U.

(** Boolean comparison of two arrays up to [Qeq]. *)
Fixpoint veqb (x y : ndarray) : bool :=
  match x, y with
  | [], [] => true
  | a :: x', b :: y' => Qeq_bool a b && veqb x' y'
  | _, _ => false
  end.

(** The five-point stencil at cell [i] of the field [x]: the four periodic
    neighbours minus four times the cell, over [delta_x ** 2]. *)
Definition stencil (m : Z) (x : ndarray) (i : Z) : Q :=
  ((sumQ (item x) (neighbours m i) - 4 * item x i) / delta_x2 m)%Q.

(** The source term [g] as the notebook's text states it (cell 3):
    [beta v + alpha tau_1 u v^2 + u (gamma + tau_2 v)]. *)
Definition g_polynomial (U V tau_1 tau_2 alpha beta gamma : Q) : Q :=
  (beta * V + alpha * tau_1 * U * (V * V) + U * (gamma + tau_2 * V))%Q.

(** All entries of [x] lie between [lo] and [hi]. *)
Definition bounded (lo hi : Q) (x : ndarray) : Prop :=
  Forall (fun q => (lo <= q)%Q /\ (q <= hi)%Q) x.

(** A reaction term that maps arrays equal up to [Qeq] to arrays equal up
    to [Qeq]. *)
Definition veq_compatible (f : reaction) : Prop :=
  forall U U' V V' F, veq U U' -> veq V V' -> f U V = Ok F ->
    exists F', f U' V' = Ok F' /\ veq F F'.

(** The step size of [forward_euler_coupled_solver]:
    [delta_x = 2.0 / m] and [delta_t = delta_x**2 / (5.0 * sigma)]. The
    solver fixes [m = 150]; the grid size is a parameter here. *)
Definition explicit_solver_delta_t (m : Z) (sigma : Q) : result Q :=
  delta_x <- pydiv 2 (inject_Z m) ;;
  pydiv (delta_x ^ 2) (5 * sigma).

(** * Properties *)

(** ** Arithmetic of row-major indices *)

Lemma block_div (m r c : Z) : 0 <= c < m -> (r * m + c) / m = r.
Proof.
  intros Hc. symmetry. apply (Z.div_unique_pos _ _ r c); lia.
Qed.

Lemma block_mod (m r c : Z) : 0 <= c < m -> (r * m + c) mod m = c.
Proof.
  intros Hc. symmetry. apply (Z.mod_unique_pos _ _ r c); lia.
Qed.

Lemma block_inj (m r c r' c' : Z) :
  0 <= c < m -> 0 <= c' < m -> r * m + c = r' * m + c' -> r = r' /\ c = c'.
Proof.
  intros Hc Hc' E. split.
  - rewrite <- (block_div m r c Hc), <- (block_div m r' c' Hc'). now rewrite E.
  - rewrite <- (block_mod m r c Hc), <- (block_mod m r' c' Hc'). now rewrite E.
Qed.

Lemma block_split (m i : Z) :
  0 < m -> 0 <= i < m * m ->
  exists r c, i = r * m + c /\ 0 <= r < m /\ 0 <= c < m.
Proof.
  intros Hm Hi. exists (i / m), (i mod m).
  pose proof (Z.div_mod i m ltac:(lia)).
  pose proof (Z.mod_pos_bound i m Hm).
  assert (0 <= i / m) by (apply Z.div_pos; lia).
  assert (i / m < m) by (apply Z.div_lt_upper_bound; lia).
  lia.
Qed.

Lemma block_range (m r c : Z) :
  0 <= r < m -> 0 <= c < m -> 0 <= r * m + c < m * m.
Proof. intros. nia. Qed.

Lemma wrap_pred (m r : Z) :
  0 <= r < m -> (r - 1) mod m = if r =? 0 then m - 1 else r - 1.
Proof.
  intros Hr. destruct (Z.eqb_spec r 0) as [->|Hne].
  - symmetry. apply (Z.mod_unique_pos _ _ (-1) (m - 1)); lia.
  - apply Z.mod_small. lia.
Qed.

Lemma wrap_succ (m r : Z) :
  0 <= r < m -> (r + 1) mod m = if r =? m - 1 then 0 else r + 1.
Proof.
  intros Hr. destruct (Z.eqb_spec r (m - 1)) as [->|Hne].
  - symmetry. apply (Z.mod_unique_pos _ _ 1 0); lia.
  - apply Z.mod_small. lia.
Qed.

Lemma block_eqb (m r c r' c' : Z) :
  0 <= c < m -> 0 <= c' < m ->
  (r' * m + c' =? r * m + c) = (r' =? r) && (c' =? c).
Proof.
  intros Hc Hc'.
  destruct (Z.eqb_spec (r' * m + c') (r * m + c)) as [E|E].
  - apply block_inj in E; lia.
  - destruct (Z.eqb_spec r' r) as [->|]; [|reflexivity].
    destruct (Z.eqb_spec c' c) as [->|]; [|reflexivity]. contradiction.
Qed.

(** ** Ranges and sums *)

Lemma in_range_iff (n j : Z) : In j (range n) <-> 0 <= j < n.
Proof.
  unfold range. rewrite in_map_iff. split.
  - intros (k & <- & Hk). apply in_seq in Hk. lia.
  - intros Hj. exists (Z.to_nat j). split; [lia|]. apply in_seq. lia.
Qed.

Lemma range_NoDup (n : Z) : NoDup (range n).
Proof.
  unfold range. apply NoDup_map_NoDup_ForallPairs; [|apply seq_NoDup].
  intros a b _ _ E. lia.
Qed.

Lemma range_length (n : Z) : length (range n) = Z.to_nat n.
Proof. unfold range. now rewrite length_map, length_seq. Qed.

Lemma sumQ_ext (f g : Z -> Q) (l : list Z) :
  (forall j, In j l -> (f j == g j)%Q) -> (sumQ f l == sumQ g l)%Q.
Proof.
  induction l as [|a l IH]; intros Hfg; simpl; [reflexivity|].
  rewrite (Hfg a (or_introl eq_refl)), IH; [reflexivity|].
  intros j Hj. apply Hfg. now right.
Qed.

Lemma sumQ_plus (f g : Z -> Q) (l : list Z) :
  (sumQ (fun j => f j + g j) l == sumQ f l + sumQ g l)%Q.
Proof. induction l as [|a l IH]; simpl; [reflexivity|]. rewrite IH. ring. Qed.

Lemma sumQ_scale (k : Q) (f : Z -> Q) (l : list Z) :
  (sumQ (fun j => k * f j) l == k * sumQ f l)%Q.
Proof. induction l as [|a l IH]; simpl; [ring|]. rewrite IH. ring. Qed.

Lemma sumQ_zero (f : Z -> Q) (l : list Z) :
  (forall j, In j l -> (f j == 0)%Q) -> (sumQ f l == 0)%Q.
Proof.
  induction l as [|a l IH]; intros H0; simpl; [reflexivity|].
  rewrite (H0 a (or_introl eq_refl)), IH; [ring|].
  intros j Hj. apply H0. now right.
Qed.

Lemma sumQ_ind_notin (k : Z) (w : Z -> Q) (l : list Z) :
  ~ In k l -> (sumQ (fun j => ind (j =? k) * w j) l == 0)%Q.
Proof.
  intros Hk. apply sumQ_zero. intros j Hj.
  destruct (Z.eqb_spec j k) as [->|_]; [contradiction|]. simpl. ring.
Qed.

Lemma sumQ_ind_in (k : Z) (w : Z -> Q) (l : list Z) :
  NoDup l -> In k l -> (sumQ (fun j => ind (j =? k) * w j) l == w k)%Q.
Proof.
  induction 1 as [|a l Ha Hl IH]; intros Hk; [contradiction|]. simpl.
  destruct Hk as [->|Hk].
  - rewrite Z.eqb_refl, sumQ_ind_notin by assumption. simpl. ring.
  - destruct (Z.eqb_spec a k) as [->|_]; [contradiction|].
    rewrite IH by assumption. simpl. ring.
Qed.

Lemma sumQ_ind_range (n k : Z) (w : Z -> Q) :
  0 <= k < n -> (sumQ (fun j => ind (j =? k) * w j) (range n) == w k)%Q.
Proof.
  intros Hk. apply sumQ_ind_in; [apply range_NoDup|now apply in_range_iff].
Qed.

Lemma sumQ_swap (f : Z -> Z -> Q) (l1 l2 : list Z) :
  (sumQ (fun i => sumQ (fun j => f i j) l2) l1
   == sumQ (fun j => sumQ (fun i => f i j) l1) l2)%Q.
Proof.
  induction l1 as [|a l1 IH]; simpl.
  - symmetry. apply sumQ_zero. reflexivity.
  - rewrite IH, <- sumQ_plus. reflexivity.
Qed.

(** ** Library primitives on well-formed arguments *)

Lemma item_ones (n j : Z) : 0 <= j < n -> item (repeat 1%Q (Z.to_nat n)) j = 1%Q.
Proof. intros Hj. unfold item. apply nth_repeat_lt. lia. Qed.

Lemma item_scal_ones (k : Q) (n j : Z) :
  0 <= j < n -> item (scal k (repeat 1%Q (Z.to_nat n))) j = (k * 1)%Q.
Proof.
  intros Hj. unfold item. cbn [scal Numeric_ndarray].
  rewrite (nth_indep _ 0%Q (k * 0)%Q) by (rewrite length_map, repeat_length; lia).
  rewrite map_nth. f_equal. apply nth_repeat_lt. lia.
Qed.

Lemma inb_true (m n i j : Z) : 0 <= i < m -> 0 <= j < n -> inb m n i j = true.
Proof. intros. unfold inb. repeat (apply andb_true_intro; split); lia. Qed.

Lemma spdiags_ok (data : list ndarray) (diags : list Z) (m n : Z) :
  0 <= m -> 0 <= n -> length data = length diags -> has_dup diags = false ->
  spdiags data diags m n =
  Ok {| nrows := m; ncols := n;
        get := fun i j =>
          if inb m n i j then diag_entry data diags i j else 0%Q |}.
Proof.
  intros Hm Hn Hlen Hdup. unfold spdiags.
  replace ((m <? 0) || (n <? 0)) with false by lia.
  rewrite Hlen, Nat.eqb_refl, Hdup. reflexivity.
Qed.

Lemma setitem_ok (A : spmatrix) (i j : Z) (v : Q) :
  0 <= i < nrows A -> 0 <= j < ncols A ->
  setitem A i j v =
  Ok {| nrows := nrows A; ncols := ncols A;
        get := fun a b => if (a =? i) && (b =? j) then v else get A a b |}.
Proof.
  intros Hi Hj. unfold setitem.
  replace (i <? 0) with false by lia. replace (j <? 0) with false by lia.
  now rewrite inb_true.
Qed.

(** The boundary loop assigns [1.0] to the entries [bc_pair] selects and
    leaves the others alone. *)
Lemma bc_loop (m : Z) (ks : list Z) :
  0 < m -> (forall k, In k ks -> 0 <= k < m) ->
  forall A0, nrows A0 = m * m -> ncols A0 = m * m ->
  exists A', for_each ks (periodic_bc_body m) A0 = Ok A' /\
    nrows A' = m * m /\ ncols A' = m * m /\
    forall a b, get A' a b =
                if existsb (bc_pair m a b) ks then 1%Q else get A0 a b.
Proof.
  intros Hm. induction ks as [|k ks IH]; intros Hks A0 Hr Hc.
  - exists A0. repeat split; assumption.
  - assert (Hk : 0 <= k < m) by (apply Hks; now left).
    assert (H1 : 0 <= k * m < m * m) by nia.
    assert (H2 : 0 <= (k + 1) * m - 1 < m * m) by nia.
    cbn [for_each]. unfold periodic_bc_body.
    rewrite setitem_ok by lia. cbn [bind].
    rewrite setitem_ok by (cbn [nrows ncols]; lia). cbn [bind nrows ncols get].
    match goal with
    | |- context [for_each ks _ ?A1] =>
        destruct (IH (fun k' Hk' => Hks k' (or_intror Hk')) A1 Hr Hc)
          as (A' & E & Hr' & Hc' & Hget)
    end.
    exists A'. repeat split; try assumption.
    intros a b. rewrite Hget. cbn [existsb get]. unfold bc_pair at 2.
    destruct (existsb (bc_pair m a b) ks); [now rewrite orb_true_r|].
    rewrite orb_false_r.
    destruct (a =? k * m), (b =? (k + 1) * m - 1),
      (a =? (k + 1) * m - 1), (b =? k * m); reflexivity.
Qed.

Lemma bc_pair_block (m r c r' c' : Z) :
  0 < m -> 0 <= r < m -> 0 <= c < m -> 0 <= c' < m ->
  existsb (bc_pair m (r * m + c) (r' * m + c')) (range m)
  = (r' =? r) && ((c =? 0) && (c' =? m - 1) || (c =? m - 1) && (c' =? 0)).
Proof.
  intros Hm Hr Hc Hc'.
  assert (Hpair : forall k,
    bc_pair m (r * m + c) (r' * m + c') k
    = (r =? k) && (r' =? k)
      && ((c =? 0) && (c' =? m - 1) || (c =? m - 1) && (c' =? 0))).
  { intros k. unfold bc_pair.
    replace (k * m) with (k * m + 0) by lia.
    replace ((k + 1) * m - 1) with (k * m + (m - 1)) by lia.
    rewrite !block_eqb by lia.
    destruct (r =? k), (r' =? k), (c =? 0), (c' =? m - 1), (c =? m - 1),
      (c' =? 0); reflexivity. }
  apply eq_true_iff_eq. rewrite existsb_exists. split.
  - intros (k & _ & Hk). rewrite Hpair in Hk. lia.
  - intros H. exists r. split; [now apply in_range_iff|]. rewrite Hpair. lia.
Qed.

(** ** The assembled matrix *)

Lemma diag_offset_eqb (m r c r' c' d : Z) :
  0 <= c < m -> 0 <= c' < m ->
  (r' * m + c' - (r * m + c) =? d * m) = (r' =? r + d) && (c' =? c).
Proof.
  intros Hc Hc'. rewrite <- (block_eqb m (r + d) c r' c') by assumption.
  apply eq_true_iff_eq. rewrite !Z.eqb_eq. lia.
Qed.

Lemma laplacian_blocks (m : Z) :
  2 <= m ->
  exists A, laplacian_discretization m = Ok A /\
    nrows A = m * m /\ ncols A = m * m /\
    forall r c r' c',
      0 <= r < m -> 0 <= c < m -> 0 <= r' < m -> 0 <= c' < m ->
      (get A (r * m + c) (r' * m + c')
       == block_coef m r c r' c' / delta_x2 m)%Q.
Proof.
  intros Hm. unfold laplacian_discretization, pydiv.
  destruct (Qeq_bool (inject_Z (m + 1)) 0) eqn:E0.
  { apply Qeq_bool_iff in E0. unfold Qeq in E0. simpl in E0. lia. }
  cbn [bind]. unfold numpy_ones.
  replace (m ^ 2) with (m * m) by lia.
  replace (m <? 0) with false by lia.
  replace (m * m <? 0) with false by nia.
  cbn [bind].
  rewrite !spdiags_ok; try lia; try nia; try reflexivity.
  2:{ cbn [has_dup existsb]. rewrite !orb_false_r. nia. }
  cbn [bind]. unfold sp_add at 1, same_shape. cbn [nrows ncols kron sparse_eye].
  rewrite !Z.eqb_refl. cbn [andb bind].
  match goal with
  | |- context [for_each (range m) _ ?A0] =>
      destruct (bc_loop m (range m) ltac:(lia)
                  (fun k Hk => proj1 (in_range_iff m k) Hk) A0
                  eq_refl eq_refl) as (A' & E & Hr' & Hc' & Hget)
  end.
  rewrite E. cbn [bind]. unfold sp_add, same_shape. cbn [nrows ncols].
  rewrite Hr', Hc', !Z.eqb_refl. cbn [andb bind].
  eexists. split; [reflexivity|]. cbn [nrows ncols sp_div get].
  split; [reflexivity|]. split; [reflexivity|].
  intros r c r' c' Hr Hc Hr2 Hc2.
  pose proof (block_range m r c Hr Hc) as Hi.
  pose proof (block_range m r' c' Hr2 Hc2) as Hj.
  apply Qdiv_comp; [|reflexivity].
  rewrite Hget. cbn [get kron sparse_eye nrows ncols].
  rewrite (inb_true (m * m) (m * m)) by assumption.
  rewrite !block_div, !block_mod by lia.
  rewrite !(inb_true m m) by lia.
  rewrite bc_pair_block by lia.
  cbn [diag_entry andb].
  rewrite !item_ones, !item_scal_ones by lia.
  replace (m - m * m) with ((1 - m) * m) by lia.
  replace (m * m - m) with ((m - 1) * m) by lia.
  rewrite !diag_offset_eqb by lia.
  unfold block_coef.
  destruct (Z.eqb_spec r' r) as [->|Hrr]; destruct (Z.eqb_spec c' c) as [->|Hcc].
  all: repeat match goal with
       | |- context [Z.eqb ?a ?b] => destruct (Z.eqb_spec a b); try lia
       end; reflexivity.
Qed.

Lemma neighbours_block (m r c : Z) :
  0 <= r < m -> 0 <= c < m ->
  neighbours m (r * m + c)
  = [(if r =? 0 then m - 1 else r - 1) * m + c;
     (if r =? m - 1 then 0 else r + 1) * m + c;
     r * m + (if c =? 0 then m - 1 else c - 1);
     r * m + (if c =? m - 1 then 0 else c + 1)].
Proof.
  intros Hr Hc. unfold neighbours, nbr_up, nbr_down, nbr_left, nbr_right.
  rewrite !block_div, !block_mod by lia.
  now rewrite !wrap_pred, !wrap_succ by lia.
Qed.

Lemma block_coef_hits (m r c r' c' : Z) :
  2 <= m -> 0 <= r < m -> 0 <= c < m -> 0 <= r' < m -> 0 <= c' < m ->
  (block_coef m r c r' c'
   == -4 * ind (r' * m + c' =? r * m + c)
      + hits m (r * m + c) (r' * m + c'))%Q.
Proof.
  intros Hm Hr Hc Hr' Hc'. unfold hits. rewrite neighbours_block by lia.
  cbn [sumQ fold_right]. unfold block_coef.
  destruct (Z.eqb_spec r 0), (Z.eqb_spec r (m - 1)),
    (Z.eqb_spec c 0), (Z.eqb_spec c (m - 1)); try lia;
  rewrite !block_eqb by lia;
  repeat match goal with
         | |- context [Z.eqb ?a ?b] => destruct (Z.eqb_spec a b); try lia
         end; reflexivity.
Qed.

(** Every entry of the assembled matrix is the diagonal coefficient [-4]
    plus the number of neighbour directions that land on the column, over
    [delta_x ** 2]. *)
Lemma laplacian_entries (m : Z) :
  2 <= m ->
  exists A, laplacian_discretization m = Ok A /\
    nrows A = m * m /\ ncols A = m * m /\
    forall i j, 0 <= i < m * m -> 0 <= j < m * m ->
      (get A i j == (-4 * ind (j =? i) + hits m i j) / delta_x2 m)%Q.
Proof.
  intros Hm. destruct (laplacian_blocks m Hm) as (A & EA & Hr & Hc & Hget).
  exists A. repeat split; try assumption. intros i j Hi Hj.
  destruct (block_split m i ltac:(lia) Hi) as (r & c & -> & Hr1 & Hc1).
  destruct (block_split m j ltac:(lia) Hj) as (r' & c' & -> & Hr2 & Hc2).
  rewrite Hget by assumption.
  apply Qdiv_comp; [|reflexivity]. now apply block_coef_hits.
Qed.

Lemma delta_x2_pos (m : Z) : 2 <= m -> (0 < delta_x2 m)%Q.
Proof.
  intros Hm. unfold delta_x2.
  assert (H : (0 < 2 / inject_Z (m + 1))%Q).
  { apply Qlt_shift_div_l.
    - unfold Qlt. simpl. lia.
    - rewrite Qmult_0_l. reflexivity. }
  simpl. apply Qmult_lt_0_compat; assumption.
Qed.

(** ** Neighbours *)

Lemma neighbours_in_range (m i : Z) :
  0 < m -> 0 <= i < m * m ->
  forall n, In n (neighbours m i) -> 0 <= n < m * m.
Proof.
  intros Hm Hi n Hn.
  destruct (block_split m i Hm Hi) as (r & c & -> & Hr & Hc).
  rewrite neighbours_block in Hn by assumption.
  destruct (Z.eqb_spec r 0), (Z.eqb_spec r (m - 1)),
    (Z.eqb_spec c 0), (Z.eqb_spec c (m - 1));
  cbn [In] in Hn; destruct Hn as [<-|[<-|[<-|[<-|[]]]]];
  apply block_range; lia.
Qed.

(** From three points per axis on, a cell and its four neighbours are five
    different cells. *)
Lemma neighbours_NoDup (m i : Z) :
  3 <= m -> 0 <= i < m * m -> NoDup (i :: neighbours m i).
Proof.
  intros Hm Hi.
  destruct (block_split m i ltac:(lia) Hi) as (r & c & -> & Hr & Hc).
  rewrite neighbours_block by assumption.
  destruct (Z.eqb_spec r 0), (Z.eqb_spec r (m - 1)),
    (Z.eqb_spec c 0), (Z.eqb_spec c (m - 1)); try lia;
  repeat (constructor; [cbn [In]; intros Hin; decompose [or] Hin;
                        try contradiction;
                        match goal with
                        | E : _ * m + _ = _ * m + _ |- _ =>
                            apply block_inj in E; lia
                        end|]);
  constructor.
Qed.

Lemma hits_count (m i j : Z) :
  3 <= m -> 0 <= i < m * m -> 0 <= j < m * m ->
  (-4 * ind (j =? i) + hits m i j
   == if j =? i then -4 else if is_neighbour m i j then 1 else 0)%Q.
Proof.
  intros Hm Hi Hj. unfold hits, is_neighbour.
  destruct (block_split m i ltac:(lia) Hi) as (r & c & -> & Hr & Hc).
  destruct (block_split m j ltac:(lia) Hj) as (r' & c' & -> & Hr' & Hc').
  rewrite neighbours_block by assumption. cbn [sumQ fold_right existsb].
  destruct (Z.eqb_spec r 0), (Z.eqb_spec r (m - 1)),
    (Z.eqb_spec c 0), (Z.eqb_spec c (m - 1)); try lia;
  rewrite !block_eqb by lia;
  repeat match goal with
         | |- context [Z.eqb ?a ?b] => destruct (Z.eqb_spec a b); try lia
         end; reflexivity.
Qed.

Lemma laplacian_five_point_from_3 (m : Z) :
  3 <= m -> exists A, laplacian_discretization m = Ok A /\ five_point m A.
Proof.
  intros Hm.
  destruct (laplacian_entries m ltac:(lia)) as (A & EA & Hr & Hc & Hget).
  exists A. split; [assumption|]. repeat split; try assumption.
  intros i j Hi Hj. rewrite (Hget i j Hi Hj), (hits_count m i j Hm Hi Hj).
  unfold stencil_entry.
  destruct (j =? i); [reflexivity|].
  destruct (is_neighbour m i j); [reflexivity|].
  unfold Qdiv. ring.
Qed.

(** C1 (amended): for every integer m >= 3, laplacian_discretization(m)
    returns an m^2 x m^2 matrix whose entry (i, j) is -4/dx^2 when i = j,
    1/dx^2 when j is one of the four periodic-grid neighbours of i, and 0
    otherwise, with dx = 2/(m+1). *)
Theorem laplacian_stencil_entries (m : Z) :
  3 <= m -> exists A, laplacian_discretization m = Ok A /\ five_point m A.
Proof. exact (laplacian_five_point_from_3 m). Qed.

Lemma laplacian_stencil_entries_witness :
  exists A, laplacian_discretization 3 = Ok A /\ five_point 3 A.
Proof. apply (laplacian_stencil_entries 3). lia. Defined.

(** C1 as stated fails at m = 2: the two vertical (and the two horizontal)
    neighbours of a cell coincide, and entry (0, 1) is 2/dx^2. *)
Lemma laplacian_stencil_entries_fails_at_2 :
  ~ (exists A, laplacian_discretization 2 = Ok A /\ five_point 2 A).
Proof.
  intros (A & EA & _ & _ & H).
  specialize (H 0 1 ltac:(unfold in_range; lia) ltac:(unfold in_range; lia)).
  assert (E : entry (laplacian_discretization 2) 0 1 = 18 # 4)
    by (vm_compute; reflexivity).
  rewrite EA in E. cbn [entry] in E. rewrite E in H.
  vm_compute in H. discriminate H.
Qed.

(** ** Facts about any matrix the construction returns *)

Lemma laplacian_returns (m : Z) :
  2 <= m -> exists A, laplacian_discretization m = Ok A.
Proof.
  intros Hm. destruct (laplacian_blocks m Hm) as (A & EA & _). now exists A.
Qed.

Lemma laplacian_shape (m : Z) (A : spmatrix) :
  2 <= m -> laplacian_discretization m = Ok A ->
  nrows A = m * m /\ ncols A = m * m.
Proof.
  intros Hm EA. destruct (laplacian_blocks m Hm) as (A' & EA' & Hr & Hc & _).
  rewrite EA in EA'. injection EA' as <-. now split.
Qed.

Lemma laplacian_get_block (m : Z) (A : spmatrix) :
  2 <= m -> laplacian_discretization m = Ok A ->
  forall r c r' c',
    0 <= r < m -> 0 <= c < m -> 0 <= r' < m -> 0 <= c' < m ->
    (get A (r * m + c) (r' * m + c') == block_coef m r c r' c' / delta_x2 m)%Q.
Proof.
  intros Hm EA. destruct (laplacian_blocks m Hm) as (A' & EA' & _ & _ & H).
  rewrite EA in EA'. injection EA' as <-. exact H.
Qed.

Lemma laplacian_get (m : Z) (A : spmatrix) :
  2 <= m -> laplacian_discretization m = Ok A ->
  forall i j, 0 <= i < m * m -> 0 <= j < m * m ->
    (get A i j == (-4 * ind (j =? i) + hits m i j) / delta_x2 m)%Q.
Proof.
  intros Hm EA. destruct (laplacian_entries m Hm) as (A' & EA' & _ & _ & H).
  rewrite EA in EA'. injection EA' as <-. exact H.
Qed.

Lemma block_coef_sym (m r c r' c' : Z) :
  2 <= m -> 0 <= r < m -> 0 <= c < m -> 0 <= r' < m -> 0 <= c' < m ->
  (block_coef m r c r' c' == block_coef m r' c' r c)%Q.
Proof.
  intros Hm Hr1 Hc1 Hr2 Hc2. unfold block_coef.
  destruct (Z.eqb_spec r' r) as [->|Hr]; destruct (Z.eqb_spec c' c) as [->|Hc];
  repeat match goal with
         | |- context [Z.eqb ?a ?b] => destruct (Z.eqb_spec a b); try lia
         end; reflexivity.
Qed.

Lemma laplacian_sym (m : Z) (A : spmatrix) :
  2 <= m -> laplacian_discretization m = Ok A -> symmetric A.
Proof.
  intros Hm EA i j Hi Hj.
  destruct (laplacian_shape m A Hm EA) as [Hr Hc].
  unfold in_range in Hi, Hj. rewrite Hr in Hi. rewrite Hc in Hj.
  destruct (block_split m i ltac:(lia) Hi) as (r & c & -> & Hr1 & Hc1).
  destruct (block_split m j ltac:(lia) Hj) as (r' & c' & -> & Hr2 & Hc2).
  rewrite !(laplacian_get_block m A Hm EA) by assumption.
  apply Qdiv_comp; [now apply block_coef_sym|reflexivity].
Qed.

(** C4: for every integer m >= 2 the matrix returned by
    laplacian_discretization(m) is symmetric: A[i,j] = A[j,i] for all
    i, j in [0, m^2). *)
Theorem laplacian_symmetric (m : Z) :
  2 <= m ->
  exists A, laplacian_discretization m = Ok A /\
    forall i j, 0 <= i < m * m -> 0 <= j < m * m -> (get A i j == get A j i)%Q.
Proof.
  intros Hm. destruct (laplacian_returns m Hm) as [A EA].
  exists A. split; [assumption|]. intros i j Hi Hj.
  destruct (laplacian_shape m A Hm EA) as [Hr Hc].
  apply (laplacian_sym m A Hm EA); unfold in_range; lia.
Qed.

Lemma laplacian_symmetric_witness :
  exists A, laplacian_discretization 2 = Ok A /\
    forall i j, 0 <= i < 2 * 2 -> 0 <= j < 2 * 2 -> (get A i j == get A j i)%Q.
Proof. apply (laplacian_symmetric 2). lia. Defined.

(** ** Row sums and matrix-vector products *)

Lemma sumQ_hits (N : Z) (ns : list Z) (w : Z -> Q) :
  (forall n, In n ns -> 0 <= n < N) ->
  (sumQ (fun j => sumQ (fun n => ind (j =? n)) ns * w j) (range N)
   == sumQ w ns)%Q.
Proof.
  induction ns as [|n ns IH]; intros Hns; cbn [sumQ fold_right].
  - apply sumQ_zero. intros. ring.
  - rewrite <- IH by (intros; apply Hns; now right).
    rewrite <- (sumQ_ind_range N n w) by (apply Hns; now left).
    rewrite <- sumQ_plus. apply sumQ_ext. intros j _. unfold sumQ. ring.
Qed.

(** Row [i] applied to any weights is the five-point stencil at cell [i]. *)
Lemma laplacian_row_weighted (m : Z) (A : spmatrix) (w : Z -> Q) (i : Z) :
  2 <= m -> laplacian_discretization m = Ok A -> 0 <= i < m * m ->
  (sumQ (fun j => get A i j * w j) (range (m * m))
   == (sumQ w (neighbours m i) - 4 * w i) / delta_x2 m)%Q.
Proof.
  intros Hm EA Hi.
  transitivity
    ((1 / delta_x2 m)
     * (-4 * sumQ (fun j => ind (j =? i) * w j) (range (m * m))
        + sumQ (fun j => hits m i j * w j) (range (m * m))))%Q.
  - rewrite <- sumQ_scale, <- sumQ_plus, <- sumQ_scale.
    apply sumQ_ext. intros j Hj. apply in_range_iff in Hj.
    rewrite (laplacian_get m A Hm EA i j Hi Hj). unfold Qdiv. ring.
  - rewrite sumQ_ind_range by assumption. unfold hits.
    rewrite sumQ_hits by (apply neighbours_in_range; lia).
    unfold Qdiv. ring.
Qed.

Lemma laplacian_row_sum (m : Z) (A : spmatrix) (i : Z) :
  2 <= m -> laplacian_discretization m = Ok A -> 0 <= i < m * m ->
  (row_sum A i == 0)%Q.
Proof.
  intros Hm EA Hi. destruct (laplacian_shape m A Hm EA) as [Hr Hc].
  unfold row_sum. rewrite Hc.
  transitivity (sumQ (fun j => get A i j * (fun _ => 1) j) (range (m * m)))%Q.
  - apply sumQ_ext. intros. ring.
  - rewrite (laplacian_row_weighted m A _ i Hm EA Hi).
    unfold neighbours, Qdiv. cbn [sumQ fold_right]. ring.
Qed.

Lemma item_constant (n : Z) (c : Q) (j : Z) :
  0 <= j < n -> item (constant n c) j = c.
Proof. intros Hj. unfold item, constant. apply nth_repeat_lt. lia. Qed.

Lemma constant_length (n : Z) (c : Q) : length (constant n c) = Z.to_nat n.
Proof. apply repeat_length. Qed.

Lemma laplacian_row_dot (m : Z) (A : spmatrix) (x : ndarray) (i : Z) :
  2 <= m -> laplacian_discretization m = Ok A -> 0 <= i < m * m ->
  (row_dot A x i == (sumQ (item x) (neighbours m i) - 4 * item x i) / delta_x2 m)%Q.
Proof.
  intros Hm EA Hi. destruct (laplacian_shape m A Hm EA) as [Hr Hc].
  unfold row_dot. rewrite Hc. now apply laplacian_row_weighted.
Qed.

Lemma laplacian_row_dot_constant (m : Z) (A : spmatrix) (c : Q) (i : Z) :
  2 <= m -> laplacian_discretization m = Ok A -> 0 <= i < m * m ->
  (row_dot A (constant (m * m) c) i == 0)%Q.
Proof.
  intros Hm EA Hi. rewrite (laplacian_row_dot m A _ i Hm EA Hi).
  assert (Hn := neighbours_in_range m i ltac:(lia) Hi).
  unfold neighbours in *. cbn [sumQ fold_right].
  rewrite !item_constant; try assumption; try (apply Hn; cbn [In]; tauto).
  unfold Qdiv. ring.
Qed.

(** C3: for every integer m >= 2, every row of the matrix returned by
    laplacian_discretization(m) sums to zero, and the product of the matrix
    with any constant vector of length m^2 is the zero vector. *)
Theorem laplacian_rows_sum_to_zero (m : Z) :
  2 <= m ->
  exists A, laplacian_discretization m = Ok A /\
    (forall i, 0 <= i < m * m -> (row_sum A i == 0)%Q) /\
    (forall c, exists y, matvec A (constant (m * m) c) = Ok y /\
       length y = Z.to_nat (m * m) /\ Forall (fun q => (q == 0)%Q) y).
Proof.
  intros Hm. destruct (laplacian_returns m Hm) as [A EA].
  destruct (laplacian_shape m A Hm EA) as [Hr Hc].
  exists A. split; [assumption|]. split.
  - intros i Hi. now apply (laplacian_row_sum m).
  - intros c. unfold matvec.
    rewrite constant_length, Hc, Z2Nat.id, Z.eqb_refl, Hr by nia.
    eexists. split; [reflexivity|]. split.
    + now rewrite length_map, range_length.
    + apply Forall_map, Forall_forall. intros i Hi. apply in_range_iff in Hi.
      now apply (laplacian_row_dot_constant m).
Qed.

Lemma laplacian_rows_sum_to_zero_witness :
  exists A, laplacian_discretization 2 = Ok A /\
    (forall i, 0 <= i < 2 * 2 -> (row_sum A i == 0)%Q) /\
    (forall c, exists y, matvec A (constant (2 * 2) c) = Ok y /\
       length y = Z.to_nat (2 * 2) /\ Forall (fun q => (q == 0)%Q) y).
Proof. apply (laplacian_rows_sum_to_zero 2). lia. Defined.

(** ** Counting the entries of a row *)

Lemma filter_length_NoDup (p : Z -> bool) (l l' : list Z) :
  NoDup l -> NoDup l' ->
  (forall x, In x l' <-> In x l /\ p x = true) ->
  length (filter p l) = length l'.
Proof.
  intros Hl Hl' Hiff. apply Permutation_length, NoDup_Permutation.
  - now apply NoDup_filter.
  - assumption.
  - intros x. rewrite filter_In. symmetry. apply Hiff.
Qed.

Lemma nonzero_comp (q q' : Q) : (q == q')%Q -> nonzero q = nonzero q'.
Proof.
  intros E. unfold nonzero. f_equal. apply eq_true_iff_eq.
  rewrite !Qeq_bool_iff. now rewrite E.
Qed.

Lemma Qeq_bool_comp (q q' v : Q) :
  (q == q')%Q -> Qeq_bool q v = Qeq_bool q' v.
Proof.
  intros E. apply eq_true_iff_eq. rewrite !Qeq_bool_iff. now rewrite E.
Qed.

Lemma scaled_nonzero (k d : Q) : (0 < d)%Q -> ~ (k == 0)%Q -> ~ (k / d == 0)%Q.
Proof.
  intros Hd Hk E. apply Hk.
  assert (Hd0 : ~ (d == 0)%Q)
    by (intros Hz; rewrite Hz in Hd; exact (Qlt_irrefl 0 Hd)).
  assert (E' : (k == k / d * d)%Q) by (field; exact Hd0).
  rewrite E' , E. ring.
Qed.

Lemma is_neighbour_In (m i j : Z) :
  is_neighbour m i j = true <-> In j (neighbours m i).
Proof.
  unfold is_neighbour. rewrite existsb_exists. split.
  - intros (n & Hn & E). apply Z.eqb_eq in E. now subst.
  - intros Hj. exists j. split; [assumption|apply Z.eqb_refl].
Qed.

Lemma five_point_row_counts (m : Z) (A : spmatrix) (i : Z) :
  3 <= m -> five_point m A -> 0 <= i < m * m ->
  row_nnz A i = 5%nat /\
  row_offdiag_count A i (1 / delta_x2 m) = 4%nat /\
  (get A i i == -4 / delta_x2 m)%Q.
Proof.
  intros Hm (Hr & Hc & Hget) Hi.
  pose proof (delta_x2_pos m ltac:(lia)) as Hd.
  pose proof (neighbours_NoDup m i Hm Hi) as Hnd.
  pose proof (neighbours_in_range m i ltac:(lia) Hi) as Hin.
  assert (Hone : ~ (1 / delta_x2 m == 0)%Q)
    by (apply scaled_nonzero; [assumption|discriminate]).
  assert (Hfour : ~ (-4 / delta_x2 m == 0)%Q)
    by (apply scaled_nonzero; [assumption|discriminate]).
  split; [|split].
  - unfold row_nnz. rewrite Hc.
    rewrite (filter_length_NoDup _ _ (i :: neighbours m i));
      [reflexivity|apply range_NoDup|assumption|].
    intros j. rewrite in_range_iff. split.
    + intros Hj.
      assert (Hjr : 0 <= j < m * m)
        by (destruct Hj as [<-|Hj]; [assumption|now apply Hin]).
      split; [assumption|].
      rewrite (nonzero_comp _ _ (Hget i j Hi Hjr)). unfold stencil_entry, nonzero.
      destruct (Z.eqb_spec j i) as [->|Hne].
      * apply negb_true_iff. apply not_true_is_false.
        now rewrite Qeq_bool_iff.
      * destruct Hj as [<-|Hj]; [contradiction|].
        apply is_neighbour_In in Hj. rewrite Hj.
        apply negb_true_iff. apply not_true_is_false.
        now rewrite Qeq_bool_iff.
    + intros [Hjr Hnz].
      rewrite (nonzero_comp _ _ (Hget i j Hi Hjr)) in Hnz.
      unfold stencil_entry in Hnz.
      destruct (Z.eqb_spec j i) as [->|Hne]; [now left|].
      destruct (is_neighbour m i j) eqn:Hn.
      * right. now apply is_neighbour_In.
      * discriminate Hnz.
  - unfold row_offdiag_count. rewrite Hc.
    rewrite (filter_length_NoDup _ _ (neighbours m i));
      [reflexivity|apply range_NoDup|now inversion Hnd|].
    intros j. rewrite in_range_iff. split.
    + intros Hj. pose proof (Hin j Hj) as Hjr. split; [assumption|].
      rewrite (Qeq_bool_comp _ _ _ (Hget i j Hi Hjr)). unfold stencil_entry.
      destruct (Z.eqb_spec j i) as [->|Hne].
      * inversion Hnd; contradiction.
      * apply is_neighbour_In in Hj. rewrite Hj. cbn [negb andb].
        now apply Qeq_bool_iff.
    + intros [Hjr Hp]. apply andb_prop in Hp. destruct Hp as [Hne Hv].
      rewrite (Qeq_bool_comp _ _ _ (Hget i j Hi Hjr)) in Hv.
      unfold stencil_entry in Hv.
      destruct (Z.eqb_spec j i) as [->|_]; [discriminate Hne|].
      destruct (is_neighbour m i j) eqn:Hn; [now apply is_neighbour_In|].
      apply Qeq_bool_iff in Hv. exfalso. apply Hone. now symmetry.
  - rewrite (Hget i i Hi Hi). unfold stencil_entry. now rewrite Z.eqb_refl.
Qed.

(** C5 (amended): for every integer m >= 3, each of the m^2 rows of the
    matrix returned by laplacian_discretization(m) has exactly 5 non-zero
    entries: four off-diagonal entries of value 1/dx^2 and the diagonal
    entry of value -4/dx^2. *)
Theorem laplacian_five_entries_per_row (m : Z) :
  3 <= m ->
  exists A, laplacian_discretization m = Ok A /\
    forall i, 0 <= i < m * m ->
      row_nnz A i = 5%nat /\
      row_offdiag_count A i (1 / delta_x2 m) = 4%nat /\
      (get A i i == -4 / delta_x2 m)%Q.
Proof.
  intros Hm. destruct (laplacian_five_point_from_3 m Hm) as (A & EA & H5).
  exists A. split; [assumption|]. intros i Hi.
  now apply five_point_row_counts.
Qed.

Lemma laplacian_five_entries_per_row_witness :
  exists A, laplacian_discretization 3 = Ok A /\
    forall i, 0 <= i < 3 * 3 ->
      row_nnz A i = 5%nat /\
      row_offdiag_count A i (1 / delta_x2 3) = 4%nat /\
      (get A i i == -4 / delta_x2 3)%Q.
Proof. apply (laplacian_five_entries_per_row 3). lia. Defined.

(** C5 as stated fails at m = 2: row 0 has three non-zero entries. *)
Lemma laplacian_five_entries_fails_at_2 :
  ~ (exists A, laplacian_discretization 2 = Ok A /\
       forall i, 0 <= i < 2 * 2 ->
         row_nnz A i = 5%nat /\
         row_offdiag_count A i (1 / delta_x2 2) = 4%nat /\
         (get A i i == -4 / delta_x2 2)%Q).
Proof.
  intros (A & EA & H). destruct (H 0 ltac:(lia)) as (H5 & _).
  assert (E : match laplacian_discretization 2 with
              | Ok A => row_nnz A 0
              | Raise _ => 0%nat
              end = 3%nat) by (vm_compute; reflexivity).
  rewrite EA in E. rewrite E in H5. discriminate H5.
Qed.

(** ** The smallest grid *)

(** C10: for m = 2 every row of the matrix returned by
    laplacian_discretization(2) has exactly 3 non-zero entries, the diagonal
    entry -4/dx^2 and two off-diagonal entries of value 2/dx^2; the matrix
    is symmetric and every row sums to zero. *)
Theorem laplacian_smallest_grid :
  exists A, laplacian_discretization 2 = Ok A /\
    Forall (fun i => row_nnz A i = 3%nat /\
                     (get A i i == -4 / delta_x2 2)%Q /\
                     row_offdiag_count A i (2 / delta_x2 2) = 2%nat /\
                     (row_sum A i == 0)%Q) (range 4) /\
    symmetric A.
Proof.
  destruct (laplacian_returns 2 ltac:(lia)) as [A EA]. exists A.
  split; [assumption|]. split; [|apply (laplacian_sym 2); [lia|assumption]].
  assert (E : match laplacian_discretization 2 with
              | Ok A =>
                  forallb (fun i =>
                    (row_nnz A i =? 3)%nat
                    && Qeq_bool (get A i i) (-4 / delta_x2 2)
                    && (row_offdiag_count A i (2 / delta_x2 2) =? 2)%nat
                    && Qeq_bool (row_sum A i) 0) (range 4)
              | Raise _ => false
              end = true) by (vm_compute; reflexivity).
  rewrite EA in E. rewrite forallb_forall in E.
  apply Forall_forall. intros i Hi. specialize (E i Hi).
  repeat (apply andb_prop in E; destruct E as [E ?]).
  repeat split.
  - now apply Nat.eqb_eq.
  - now apply Qeq_bool_iff.
  - now apply Nat.eqb_eq.
  - now apply Qeq_bool_iff.
Qed.

(** ** Grid sizes below two *)

(** C9: laplacian_discretization raises for every grid size m < 2, and
    returns a 4 x 4 matrix for m = 2. *)
Theorem laplacian_rejects_small_grids (m : Z) :
  m < 2 ->
  raises (laplacian_discretization m) /\
  exists A, laplacian_discretization 2 = Ok A /\ nrows A = 4 /\ ncols A = 4.
Proof.
  intros Hm. split.
  - unfold laplacian_discretization, pydiv.
    destruct (Qeq_bool (inject_Z (m + 1)) 0); [now exists ZeroDivisionError|].
    cbn [bind]. unfold numpy_ones at 1.
    destruct (Z.ltb_spec m 0) as [Hneg|Hpos]; [now exists ValueError|].
    assert (Hcases : m = 0 \/ m = 1) by lia.
    destruct Hcases as [-> | ->]; now exists ValueError.
  - destruct (laplacian_returns 2 ltac:(lia)) as [A EA].
    destruct (laplacian_shape 2 A ltac:(lia) EA) as [Hr Hc].
    exists A. repeat split; assumption.
Qed.

Lemma laplacian_rejects_small_grids_witness :
  raises (laplacian_discretization 1) /\
  exists A, laplacian_discretization 2 = Ok A /\ nrows A = 4 /\ ncols A = 4.
Proof. apply (laplacian_rejects_small_grids 1). lia. Defined.

Lemma laplacian_at_0 : laplacian_discretization 0 = Raise ValueError.
Proof. reflexivity. Qed.

Lemma laplacian_at_1 : laplacian_discretization 1 = Raise ValueError.
Proof. reflexivity. Qed.

Lemma laplacian_at_minus_1 : laplacian_discretization (-1) = Raise ZeroDivisionError.
Proof. reflexivity. Qed.

(** ** Reaction terms at the origin *)

Lemma f_reaction_origin (sigma tau_1 tau_2 alpha beta gamma : Q) :
  exists v : Q,
    f_reaction 0%Q 0%Q sigma tau_1 tau_2 alpha beta gamma = Ok v /\ (v == 0)%Q.
Proof.
  eexists. split; [reflexivity|]. cbn [scal rsub sqr Numeric_float]. ring.
Qed.

Lemma g_reaction_origin (sigma tau_1 tau_2 alpha beta gamma : Q) :
  ~ (beta == 0)%Q ->
  exists v : Q,
    g_reaction 0%Q 0%Q sigma tau_1 tau_2 alpha beta gamma = Ok v /\ (v == 0)%Q.
Proof.
  intros Hb. unfold g_reaction, pydiv.
  destruct (Qeq_bool beta 0) eqn:E; [now apply Qeq_bool_iff in E|].
  eexists. split; [reflexivity|]. cbn [scal offs Numeric_float]. ring.
Qed.

(** C8 at its failing input: with beta = 0 the factored form of g divides
    by zero, whatever the other parameters are. *)
Theorem g_reaction_beta_zero (sigma tau_1 tau_2 alpha gamma : Q) :
  g_reaction 0%Q 0%Q sigma tau_1 tau_2 alpha 0 gamma = Raise ZeroDivisionError.
Proof. reflexivity. Qed.

(** ** The implicit diffusion system *)

Lemma list_argmax (f : Z -> Q) (l : list Z) :
  l <> [] -> exists a, In a l /\ forall b, In b l -> (f b <= f a)%Q.
Proof.
  induction l as [|a l IH]; intros Hne; [contradiction|].
  destruct l as [|a' l'].
  - exists a. split; [now left|]. intros b [<-|[]]. apply Qle_refl.
  - destruct (IH ltac:(discriminate)) as (a0 & Ha0 & Hmax).
    destruct (Qlt_le_dec (f a0) (f a)) as [Hlt|Hle].
    + exists a. split; [now left|]. intros b [<-|Hb]; [apply Qle_refl|].
      specialize (Hmax b Hb). lra.
    + exists a0. split; [now right|]. intros b [<-|Hb]; [assumption|].
      now apply Hmax.
Qed.

Lemma veq_map_repeat (f : Z -> Q) (l : list Z) (c : Q) :
  veq (map f l) (repeat c (length l)) <-> forall i, In i l -> (f i == c)%Q.
Proof.
  unfold veq. induction l as [|a l IH]; cbn [map length repeat].
  - split; [intros _ i []|constructor].
  - split.
    + intros H i [<-|Hi]; inversion H; subst; [assumption|]. now apply IH.
    + intros H. constructor; [apply H; now left|].
      apply IH. intros i Hi. apply H. now right.
Qed.

Lemma veq_repeat_nth (x : ndarray) (c : Q) :
  (forall k, (k < length x)%nat -> (nth k x 0 == c)%Q) ->
  veq x (repeat c (length x)).
Proof.
  unfold veq. induction x as [|a x IH]; intros H; cbn [length repeat].
  - constructor.
  - constructor; [apply (H 0%nat); cbn; lia|].
    apply IH. intros k Hk. apply (H (S k)). cbn. lia.
Qed.

Lemma be_system_ok (A : spmatrix) (delta_t sigma D : Q) :
  nrows A = ncols A ->
  be_system A delta_t sigma D =
  Ok {| nrows := nrows A; ncols := nrows A;
        get := fun i j =>
          (get (sparse_eye (nrows A)) i j
           - get (sp_scale (delta_t * sigma * D) A) i j)%Q |}.
Proof.
  intros Hsq. unfold be_system, sp_sub, same_shape.
  cbn [nrows ncols sparse_eye sp_scale].
  now rewrite <- Hsq, !Z.eqb_refl.
Qed.

(** Row [i] of the implicit system applied to [x]. *)
Lemma be_system_row (m : Z) (A M : spmatrix) (delta_t sigma D : Q)
  (x : ndarray) (i : Z) :
  2 <= m -> laplacian_discretization m = Ok A ->
  be_system A delta_t sigma D = Ok M -> 0 <= i < m * m ->
  (row_dot M x i
   == item x i
      - delta_t * sigma * D
        * ((sumQ (item x) (neighbours m i) - 4 * item x i) / delta_x2 m))%Q.
Proof.
  intros Hm EA EM Hi. destruct (laplacian_shape m A Hm EA) as [Hr Hc].
  rewrite be_system_ok in EM by congruence. injection EM as <-.
  unfold row_dot. cbn [nrows ncols get sparse_eye sp_scale]. rewrite Hr.
  rewrite <- (laplacian_row_weighted m A (item x) i Hm EA Hi).
  rewrite <- (sumQ_ind_range (m * m) i (item x) Hi).
  rewrite <- sumQ_scale.
  transitivity
    (sumQ (fun j => ind (j =? i) * item x j
                    + -1 * (delta_t * sigma * D * (get A i j * item x j)))
       (range (m * m)))%Q.
  - apply sumQ_ext. intros j Hj. apply in_range_iff in Hj.
    rewrite inb_true by assumption. cbn [andb]. rewrite (Z.eqb_sym i j).
    unfold ind. destruct (j =? i); ring.
  - rewrite sumQ_plus, sumQ_scale. ring.
Qed.

Lemma max_principle_bound (X S k d c : Q) :
  (0 < k)%Q -> (0 < d)%Q -> (S <= 4 * X)%Q ->
  (c == X - k * ((S - 4 * X) / d))%Q -> (X <= c)%Q.
Proof.
  intros Hk Hd HS Hc.
  assert (Ht : ((S - 4 * X) / d <= 0)%Q) by (apply Qle_shift_div_r; lra).
  assert (Hkt : (k * ((S - 4 * X) / d) <= 0)%Q).
  { rewrite <- (Qmult_0_r k). apply Qmult_le_l; assumption. }
  lra.
Qed.

Lemma min_principle_bound (X S k d c : Q) :
  (0 < k)%Q -> (0 < d)%Q -> (4 * X <= S)%Q ->
  (c == X - k * ((S - 4 * X) / d))%Q -> (c <= X)%Q.
Proof.
  intros Hk Hd HS Hc.
  assert (Ht : (0 <= (S - 4 * X) / d)%Q) by (apply Qle_shift_div_l; lra).
  assert (Hkt : (0 <= k * ((S - 4 * X) / d))%Q)
    by (apply Qmult_le_0_compat; lra).
  lra.
Qed.

(** Discrete maximum principle: if every row of the implicit system
    applied to [x] gives the same value [c], every entry of [x] is [c]. *)
Lemma be_system_constant_rhs (m : Z) (A M : spmatrix) (delta_t sigma D c : Q)
  (x : ndarray) :
  2 <= m -> (0 < delta_t)%Q -> (0 < sigma)%Q -> (0 < D)%Q ->
  laplacian_discretization m = Ok A ->
  be_system A delta_t sigma D = Ok M ->
  (forall i, 0 <= i < m * m -> (row_dot M x i == c)%Q) ->
  forall i, 0 <= i < m * m -> (item x i == c)%Q.
Proof.
  intros Hm Hdt Hs HD EA EM Hrows.
  pose proof (delta_x2_pos m Hm) as Hd.
  assert (Hk : (0 < delta_t * sigma * D)%Q)
    by (repeat apply Qmult_lt_0_compat; assumption).
  assert (Hne : range (m * m) <> []).
  { intros E. apply (f_equal (@length Z)) in E.
    rewrite range_length in E. cbn [length] in E. nia. }
  destruct (list_argmax (item x) _ Hne) as (hi & Hhi & Hmax).
  destruct (list_argmax (fun i => - item x i)%Q _ Hne) as (lo & Hlo & Hmin).
  apply in_range_iff in Hhi, Hlo.
  assert (Hup : (item x hi <= c)%Q).
  { apply (max_principle_bound _ (sumQ (item x) (neighbours m hi))
             (delta_t * sigma * D) (delta_x2 m)); try assumption.
    - pose proof (neighbours_in_range m hi ltac:(lia) Hhi) as Hn.
      unfold neighbours in *. cbn [sumQ fold_right].
      pose proof (Hmax _ (proj2 (in_range_iff _ _) (Hn _ (or_introl eq_refl)))).
      pose proof (Hmax _ (proj2 (in_range_iff _ _)
                            (Hn _ (or_intror (or_introl eq_refl))))).
      pose proof (Hmax _ (proj2 (in_range_iff _ _)
                            (Hn _ (or_intror (or_intror (or_introl eq_refl)))))).
      pose proof (Hmax _ (proj2 (in_range_iff _ _)
               (Hn _ (or_intror (or_intror (or_intror (or_introl eq_refl))))))).
      lra.
    - rewrite <- (Hrows hi Hhi). now apply (be_system_row m A M). }
  assert (Hdown : (c <= item x lo)%Q).
  { apply (min_principle_bound _ (sumQ (item x) (neighbours m lo))
             (delta_t * sigma * D) (delta_x2 m)); try assumption.
    - pose proof (neighbours_in_range m lo ltac:(lia) Hlo) as Hn.
      unfold neighbours in *. cbn [sumQ fold_right].
      pose proof (Hmin _ (proj2 (in_range_iff _ _) (Hn _ (or_introl eq_refl)))).
      pose proof (Hmin _ (proj2 (in_range_iff _ _)
                            (Hn _ (or_intror (or_introl eq_refl))))).
      pose proof (Hmin _ (proj2 (in_range_iff _ _)
                            (Hn _ (or_intror (or_intror (or_introl eq_refl)))))).
      pose proof (Hmin _ (proj2 (in_range_iff _ _)
               (Hn _ (or_intror (or_intror (or_intror (or_introl eq_refl))))))).
      cbv beta in *. lra.
    - rewrite <- (Hrows lo Hlo). now apply (be_system_row m A M). }
  intros i Hi. apply in_range_iff in Hi.
  pose proof (Hmax i Hi). pose proof (Hmin i Hi). cbv beta in *. lra.
Qed.

Lemma be_system_shape (m : Z) (A M : spmatrix) (delta_t sigma D : Q) :
  2 <= m -> laplacian_discretization m = Ok A ->
  be_system A delta_t sigma D = Ok M -> nrows M = m * m /\ ncols M = m * m.
Proof.
  intros Hm EA EM. destruct (laplacian_shape m A Hm EA) as [Hr Hc].
  rewrite be_system_ok in EM by congruence. injection EM as <-.
  cbn [nrows ncols]. now split.
Qed.

Lemma matvec_inv (M : spmatrix) (x y : ndarray) :
  matvec M x = Ok y ->
  Z.of_nat (length x) = ncols M /\ y = map (row_dot M x) (range (nrows M)).
Proof.
  unfold matvec. destruct (Z.eqb_spec (Z.of_nat (length x)) (ncols M)) as [E|E];
    [|discriminate]. intros H. injection H as <-. now split.
Qed.

Lemma veq_map_constant (f : Z -> Q) (n : Z) (c : Q) :
  veq (map f (range n)) (constant n c) <->
  forall i, 0 <= i < n -> (f i == c)%Q.
Proof.
  unfold constant. rewrite <- (range_length n), veq_map_repeat.
  split; intros H i Hi; apply H; now apply in_range_iff.
Qed.

Lemma be_system_fixes_constant (m : Z) (A M : spmatrix)
  (delta_t sigma D c : Q) :
  2 <= m -> laplacian_discretization m = Ok A ->
  be_system A delta_t sigma D = Ok M ->
  solves M (constant (m * m) c) (constant (m * m) c).
Proof.
  intros Hm EA EM. destruct (be_system_shape m A M _ _ _ Hm EA EM) as [Hr Hc].
  unfold solves, matvec.
  rewrite constant_length, Hc, Z2Nat.id, Z.eqb_refl, Hr by nia.
  eexists. split; [reflexivity|].
  apply veq_map_constant. intros i Hi.
  rewrite (be_system_row m A M _ _ _ _ i Hm EA EM Hi).
  assert (Hn := neighbours_in_range m i ltac:(lia) Hi).
  unfold neighbours in *. cbn [sumQ fold_right].
  rewrite !item_constant; try assumption; try (apply Hn; cbn [In]; tauto).
  unfold Qdiv. ring.
Qed.

Lemma be_system_solution_constant (m : Z) (A M : spmatrix)
  (delta_t sigma D c : Q) (x : ndarray) :
  2 <= m -> (0 < delta_t)%Q -> (0 < sigma)%Q -> (0 < D)%Q ->
  laplacian_discretization m = Ok A ->
  be_system A delta_t sigma D = Ok M ->
  solves M (constant (m * m) c) x -> veq x (constant (m * m) c).
Proof.
  intros Hm Hdt Hs HD EA EM (y & Ey & Hy).
  destruct (be_system_shape m A M _ _ _ Hm EA EM) as [Hr Hc].
  apply matvec_inv in Ey. destruct Ey as [Hlen ->].
  rewrite Hr in Hy. rewrite Hc in Hlen.
  rewrite veq_map_constant in Hy.
  assert (Hx : forall i, 0 <= i < m * m -> (item x i == c)%Q)
    by (apply (be_system_constant_rhs m A M delta_t sigma D); assumption).
  unfold constant. replace (Z.to_nat (m * m)) with (length x) by lia.
  apply veq_repeat_nth. intros k Hk.
  specialize (Hx (Z.of_nat k) ltac:(lia)). unfold item in Hx.
  now rewrite Nat2Z.id in Hx.
Qed.

(** C6: for every integer m >= 2, every delta_t > 0, sigma > 0 and D > 0
    and every constant vector b, the system (I - delta_t*sigma*D*A) x = b
    that backward_euler_diffusion_step solves, with
    A = laplacian_discretization(m), has x = b as its unique solution. *)
Theorem implicit_step_fixes_constants (m : Z) (delta_t sigma D c : Q) :
  2 <= m -> (0 < delta_t)%Q -> (0 < sigma)%Q -> (0 < D)%Q ->
  exists A M,
    laplacian_discretization m = Ok A /\
    be_system A delta_t sigma D = Ok M /\
    solves M (constant (m * m) c) (constant (m * m) c) /\
    forall x, solves M (constant (m * m) c) x -> veq x (constant (m * m) c).
Proof.
  intros Hm Hdt Hs HD. destruct (laplacian_returns m Hm) as [A EA].
  destruct (laplacian_shape m A Hm EA) as [Hr Hc].
  pose proof (be_system_ok A delta_t sigma D ltac:(congruence)) as EM.
  eexists A, _. split; [assumption|]. split; [exact EM|]. split.
  - now apply (be_system_fixes_constant m A _ delta_t sigma D).
  - intros x Hx.
    exact (be_system_solution_constant m A _ delta_t sigma D c x
             Hm Hdt Hs HD EA EM Hx).
Qed.

Lemma implicit_step_fixes_constants_witness :
  exists A M,
    laplacian_discretization 2 = Ok A /\
    be_system A (1 # 10) 1 (1 # 2) = Ok M /\
    solves M (constant (2 * 2) 3) (constant (2 * 2) 3) /\
    forall x, solves M (constant (2 * 2) 3) x -> veq x (constant (2 * 2) 3).
Proof.
  apply (implicit_step_fixes_constants 2 (1 # 10) 1 (1 # 2) 3);
    [lia | reflexivity | reflexivity | reflexivity].
Defined.

(** ** Sums of arrays *)

Lemma vsum_map (f : Z -> Q) (l : list Z) : vsum (map f l) = sumQ f l.
Proof.
  unfold vsum, sumQ.
  induction l as [|a l IH]; cbn [map fold_right]; [reflexivity|]. now rewrite IH.
Qed.

Lemma map2_length (op : Q -> Q -> Q) (x y : ndarray) :
  length x = length y -> length (map2 op x y) = length x.
Proof.
  revert y. induction x as [|a x IH]; intros [|b y] H; cbn in *;
    try reflexivity; try discriminate.
  f_equal. apply IH. now injection H.
Qed.

Lemma broadcast2_same (op : Q -> Q -> Q) (x y : ndarray) :
  length x = length y -> broadcast2 op x y = Ok (map2 op x y).
Proof. intros H. unfold broadcast2. now rewrite H, Nat.eqb_refl. Qed.

Lemma vsum_map2_plus (x y : ndarray) :
  length x = length y -> (vsum (map2 Qplus x y) == vsum x + vsum y)%Q.
Proof.
  unfold vsum. revert y.
  induction x as [|a x IH]; intros [|b y] H; cbn [map2 fold_right length] in *;
    try discriminate; [ring|].
  rewrite IH by now injection H. ring.
Qed.

Lemma vsum_scal (k : Q) (x : ndarray) : (vsum (map (Qmult k) x) == k * vsum x)%Q.
Proof.
  unfold vsum. induction x as [|a x IH]; cbn [map fold_right]; [ring|].
  rewrite IH. ring.
Qed.

Lemma vsum_zeros (x : ndarray) : (vsum (map (fun _ => 0) x) == 0)%Q.
Proof.
  unfold vsum. induction x as [|a x IH]; cbn [map fold_right]; [reflexivity|].
  rewrite IH. ring.
Qed.

(** The entries of [k * A * U] sum to zero: the columns of the matrix sum
    to zero because it is symmetric and its rows do. *)
Lemma diffusion_term_sum (m : Z) (A : spmatrix) (k : Q) (U : ndarray) :
  2 <= m -> laplacian_discretization m = Ok A ->
  (sumQ (row_dot (sp_scale k A) U) (range (m * m)) == 0)%Q.
Proof.
  intros Hm EA. destruct (laplacian_shape m A Hm EA) as [Hr Hc].
  unfold row_dot. cbn [ncols nrows get sp_scale]. rewrite Hc.
  rewrite sumQ_swap. apply sumQ_zero. intros j Hj. apply in_range_iff in Hj.
  transitivity (k * item U j * row_sum A j)%Q.
  - unfold row_sum. rewrite Hc, <- sumQ_scale. apply sumQ_ext.
    intros i Hi. apply in_range_iff in Hi.
    rewrite (laplacian_sym m A Hm EA i j); unfold in_range; try lia. ring.
  - rewrite (laplacian_row_sum m A j Hm EA Hj). ring.
Qed.

Lemma euler_update_diffusion (m : Z) (A : spmatrix) (U W W' : ndarray)
  (delta_t sigma D : Q) :
  2 <= m -> laplacian_discretization m = Ok A ->
  length U = Z.to_nat (m * m) -> length W = Z.to_nat (m * m) ->
  exists U', euler_update U delta_t A sigma D (zero_reaction W W') = Ok U' /\
    length U' = Z.to_nat (m * m) /\ (vsum U' == vsum U)%Q.
Proof.
  intros Hm EA HU HW. destruct (laplacian_shape m A Hm EA) as [Hr Hc].
  unfold euler_update, matvec, zero_reaction. cbn [ncols nrows sp_scale].
  rewrite HU, Hc, Z2Nat.id, Z.eqb_refl, Hr by nia. cbn [bind add Numeric_ndarray].
  set (AU := map (row_dot (sp_scale (sigma * D) A) U) (range (m * m))).
  set (Z0 := map (fun _ : Q => 0%Q) W).
  assert (HAU : length AU = length U)
    by (unfold AU; now rewrite length_map, range_length).
  assert (HZ0 : length Z0 = length U) by (unfold Z0; rewrite length_map; lia).
  rewrite (broadcast2_same Qplus AU Z0) by congruence.
  cbn [bind scal Numeric_ndarray].
  assert (HR : length (map (Qmult delta_t) (map2 Qplus AU Z0)) = length U)
    by (rewrite length_map, map2_length; congruence).
  rewrite broadcast2_same by congruence.
  eexists. split; [reflexivity|]. split.
  - rewrite map2_length; congruence.
  - rewrite vsum_map2_plus by congruence.
    rewrite vsum_scal, vsum_map2_plus by congruence.
    unfold Z0. rewrite vsum_zeros. unfold AU. rewrite vsum_map.
    rewrite (diffusion_term_sum m A _ U Hm EA). ring.
Qed.

Lemma pure_diffusion_iterate (m : Z) (A : spmatrix) (delta_t sigma D1 D2 : Q)
  (n : nat) :
  2 <= m -> laplacian_discretization m = Ok A ->
  forall U V,
    length U = Z.to_nat (m * m) -> length V = Z.to_nat (m * m) ->
    exists U' V',
      forward_euler_iterate n U V delta_t A sigma zero_reaction zero_reaction
        D1 D2 = Ok (U', V') /\
      (vsum U' == vsum U)%Q /\ (vsum V' == vsum V)%Q.
Proof.
  intros Hm EA. induction n as [|n IH]; intros U V HU HV.
  - exists U, V. repeat split; reflexivity.
  - cbn [forward_euler_iterate]. unfold forward_euler_step.
    destruct (euler_update_diffusion m A U U V delta_t sigma D1 Hm EA HU HU)
      as (U1 & EU & LU & SU).
    destruct (euler_update_diffusion m A V U V delta_t sigma D2 Hm EA HV HU)
      as (V1 & EV & LV & SV).
    rewrite EU, EV. cbn [bind fst snd].
    destruct (IH U1 V1 LU LV)
      as (U' & V' & E & SU' & SV').
    exists U', V'. split; [exact E|]. split.
    + now rewrite SU'.
    + now rewrite SV'.
Qed.

(** C7 (amended): with m = 4, sigma = 1, D1 = D2 = 1,
    A = laplacian_discretization(4) and delta_t = dx^2/(4 sigma), iterating
    forward_euler_step with reaction terms that are identically zero
    conserves the sum of the entries of U, for every initial pair (U, V) of
    arrays of length 16 and every number of steps. *)
Theorem pure_diffusion_conserves_sum (U V : ndarray) (n : nat) :
  length U = 16%nat -> length V = 16%nat ->
  exists A U' V',
    laplacian_discretization 4 = Ok A /\
    forward_euler_iterate n U V (delta_x2 4 / (4 * 1)) A 1
      zero_reaction zero_reaction 1 1 = Ok (U', V') /\
    (vsum U' == vsum U)%Q.
Proof.
  intros HU HV. destruct (laplacian_returns 4 ltac:(lia)) as [A EA].
  destruct (pure_diffusion_iterate 4 A (delta_x2 4 / (4 * 1)) 1 1 1 n
              ltac:(lia) EA U V HU HV) as (U' & V' & E & SU & _).
  exists A, U', V'. split; [exact EA|]. split; [exact E|exact SU].
Qed.

Lemma pure_diffusion_conserves_sum_witness :
  exists A U' V',
    laplacian_discretization 4 = Ok A /\
    forward_euler_iterate 3 (map inject_Z (range 16)) (constant 16 1)
      (delta_x2 4 / (4 * 1)) A 1 zero_reaction zero_reaction 1 1
    = Ok (U', V') /\
    (vsum U' == vsum (map inject_Z (range 16)))%Q.
Proof.
  apply (pure_diffusion_conserves_sum (map inject_Z (range 16))
           (constant 16 1) 3); reflexivity.
Defined.

(** C7 as stated fails: with tau_1 = tau_2 = alpha = beta = gamma = 0 the
    first call of forward_euler_step raises, because g_reaction divides by
    beta. *)
Lemma zero_parameter_run_raises :
  ~ (exists A U' V',
       laplacian_discretization 4 = Ok A /\
       forward_euler_iterate 1 (constant 16 1) (constant 16 1)
         (delta_x2 4 / (4 * 1)) A 1
         (f_alias 1 0 0 0 0 0) (g_alias 1 0 0 0 0 0) 1 1 = Ok (U', V') /\
       (vsum U' == vsum (constant 16 1))%Q).
Proof.
  intros (A & U' & V' & EA & E & _).
  assert (R : match laplacian_discretization 4 with
              | Ok A =>
                  forward_euler_iterate 1 (constant 16 1) (constant 16 1)
                    (delta_x2 4 / (4 * 1)) A 1
                    (f_alias 1 0 0 0 0 0) (g_alias 1 0 0 0 0 0) 1 1
              | Raise e => Raise e
              end = Raise ZeroDivisionError) by (vm_compute; reflexivity).
  rewrite EA, E in R. discriminate R.
Qed.

(** With all reaction parameters zero, f_reaction(U, V) is V, not zero:
    the update of U, which is computed before g_reaction raises, changes
    the sum of U from 16 to 16 + 16 delta_t = 16 + 16/25. *)
Lemma zero_parameter_update_changes_sum :
  match laplacian_discretization 4 with
  | Ok A =>
      match euler_update (constant 16 1) (delta_x2 4 / (4 * 1)) A 1 1
              (f_alias 1 0 0 0 0 0 (constant 16 1) (constant 16 1)) with
      | Ok U_new => Qeq_bool (vsum U_new) (16 + 16 * (delta_x2 4 / (4 * 1)))
      | Raise _ => false
      end
  | Raise _ => false
  end = true.
Proof. vm_compute. reflexivity. Qed.

(** ** The loop body of the IMEX solver *)

Lemma f_alias_shape (sigma tau_1 tau_2 alpha beta gamma : Q) :
  shape_preserving (f_alias sigma tau_1 tau_2 alpha beta gamma).
Proof.
  intros U V F HUV. unfold f_alias, f_reaction.
  cbn [mul add scal rsub sqr Numeric_ndarray].
  rewrite !broadcast2_same by (rewrite !length_map; congruence).
  cbn [bind].
  rewrite broadcast2_same
    by (rewrite !map2_length; rewrite ?length_map; congruence).
  intros E. injection E as <-.
  rewrite map2_length; rewrite !map2_length; rewrite ?length_map; congruence.
Qed.

Lemma g_alias_shape (sigma tau_1 tau_2 alpha beta gamma : Q) :
  shape_preserving (g_alias sigma tau_1 tau_2 alpha beta gamma).
Proof.
  intros U V F HUV. unfold g_alias, g_reaction.
  destruct (pydiv (alpha * tau_1) beta) as [q|e]; [|discriminate].
  cbn [bind mul add scal offs Numeric_ndarray].
  rewrite (broadcast2_same Qmult (map (Qmult q) U) V)
    by (rewrite length_map; congruence).
  cbn [bind].
  rewrite !broadcast2_same
    by (rewrite ?length_map, ?map2_length; rewrite ?length_map; congruence).
  cbn [bind].
  rewrite broadcast2_same
    by (rewrite !map2_length; rewrite ?length_map, ?map2_length;
        rewrite ?length_map; congruence).
  intros E. injection E as <-.
  rewrite map2_length; rewrite !map2_length; rewrite ?length_map, ?map2_length;
    rewrite ?length_map; congruence.
Qed.

Lemma reaction_split (U AU F : ndarray) (delta_t : Q) :
  length AU = length U -> length F = length U ->
  veq (map2 Qplus U (map (Qmult delta_t) (map2 Qplus AU F)))
      (map2 Qplus
         (map2 Qplus U
            (map (Qmult delta_t) (map2 Qplus AU (map (fun _ => 0%Q) U))))
         (map (Qmult delta_t) F)).
Proof.
  unfold veq. revert AU F.
  induction U as [|u U IH]; intros [|a AU] [|b F] HA HF; cbn in HA, HF;
    try discriminate; cbn [map2 map]; constructor.
  - ring.
  - apply IH; congruence.
Qed.

(** The update of one field by [forward_euler_step], split into the update
    without reaction and the reaction increment. *)
Lemma euler_update_split (U W W' F U' : ndarray) (delta_t : Q) (A : spmatrix)
  (sigma D : Q) :
  nrows A = ncols A -> length F = length U -> length W = length U ->
  euler_update U delta_t A sigma D (Ok F) = Ok U' ->
  exists U0,
    euler_update U delta_t A sigma D (zero_reaction W W') = Ok U0 /\
    veq U' (map2 Qplus U0 (scal delta_t F)).
Proof.
  intros Hsq HF HW. unfold euler_update, zero_reaction.
  destruct (matvec (sp_scale (sigma * D) A) U) as [AU|e] eqn:EAU;
    [|discriminate].
  apply matvec_inv in EAU. cbn [ncols nrows sp_scale] in EAU.
  destruct EAU as [HlenU EAU].
  assert (HAU : length AU = length U).
  { rewrite EAU, length_map, range_length. lia. }
  cbn [bind add scal Numeric_ndarray].
  rewrite !(broadcast2_same Qplus AU)
    by (rewrite ?length_map; congruence).
  cbn [bind].
  rewrite !broadcast2_same
    by (rewrite length_map, map2_length; rewrite ?length_map; congruence).
  intros E. injection E as <-. eexists. split; [reflexivity|].
  assert (HW' : map (fun _ : Q => 0%Q) W = map (fun _ : Q => 0%Q) U).
  { clear -HW. revert U HW.
    induction W as [|w W IH]; intros [|u U] H; cbn in *; try discriminate;
      [reflexivity|].
    f_equal. apply IH. now injection H. }
  rewrite HW'. now apply reaction_split.
Qed.

(** C2 (amended): in every iteration of imex_solver the second phase is
    applied to the post-diffusion values Us, Vs that
    backward_euler_diffusion_step returns, not to U_n, V_n: the reaction
    terms are f(Us, Vs) and g(Us, Vs), and they enter the new state as the
    increments delta_t f(Us, Vs) and delta_t g(Us, Vs) on top of what the
    second phase yields without reaction. *)
Theorem imex_second_phase (A : spmatrix) (delta_t sigma : Q) (f g : reaction)
  (D_1 D_2 : Q) (s s' : ndarray * ndarray) :
  nrows A = ncols A -> shape_preserving f -> shape_preserving g ->
  imex_solver_iteration A delta_t sigma f g D_1 D_2 s s' ->
  exists Us Vs F G s0,
    backward_euler_diffusion_step (fst s) (snd s) A delta_t sigma D_1 D_2
      (Us, Vs) /\
    f Us Vs = Ok F /\ g Us Vs = Ok G /\
    forward_euler_step Us Vs delta_t A sigma zero_reaction zero_reaction
      D1_default D2_default = Ok s0 /\
    veq (fst s') (map2 Qplus (fst s0) (scal delta_t F)) /\
    veq (snd s') (map2 Qplus (snd s0) (scal delta_t G)).
Proof.
  intros Hsq Hf Hg ([Us Vs] & HBE & Hstep). cbn [fst snd] in Hstep.
  assert (Hlen : length Us = length Vs).
  { destruct HBE as (M1 & M2 & E1 & (y1 & Ey1 & _) & E2 & (y2 & Ey2 & _)).
    cbn [fst snd] in Ey1, Ey2.
    rewrite be_system_ok in E1, E2 by assumption.
    injection E1 as <-. injection E2 as <-.
    apply matvec_inv in Ey1, Ey2. cbn [ncols] in Ey1, Ey2. lia. }
  unfold forward_euler_step in Hstep.
  destruct (f Us Vs) as [F|e] eqn:EF.
  2:{ unfold euler_update in Hstep.
      destruct (matvec (sp_scale (sigma * D1_default) A) Us); discriminate. }
  destruct (euler_update Us delta_t A sigma D1_default (Ok F)) as [U'|e] eqn:EU;
    [|discriminate].
  cbn [bind] in Hstep.
  destruct (g Us Vs) as [G|e] eqn:EG.
  2:{ unfold euler_update in Hstep.
      destruct (matvec (sp_scale (sigma * D2_default) A) Vs); discriminate. }
  destruct (euler_update Vs delta_t A sigma D2_default (Ok G)) as [V'|e] eqn:EV;
    [|discriminate].
  cbn [bind] in Hstep. injection Hstep as <-.
  pose proof (Hf Us Vs F Hlen EF) as HF.
  pose proof (Hg Us Vs G Hlen EG) as HG.
  destruct (euler_update_split Us Us Vs F U' delta_t A sigma D1_default
              Hsq HF eq_refl EU) as (U0 & EU0 & HU0).
  destruct (euler_update_split Vs Us Vs G V' delta_t A sigma D2_default
              Hsq ltac:(congruence) Hlen EV) as (V0 & EV0 & HV0).
  exists Us, Vs, F, G, (U0, V0). split; [exact HBE|].
  split; [exact EF|]. split; [exact EG|]. split.
  - unfold forward_euler_step. rewrite EU0, EV0. reflexivity.
  - split; assumption.
Qed.

(** One pass of the loop body on the 2 x 2 grid, with delta_t = sigma = 1,
    D_1 = D_2 = 1, alpha = beta = 1 and the other parameters zero. The
    implicit solve turns U = [10, -9/2, -9/2, 0] into [1, 0, 0, 0]. *)
Lemma veqb_veq (x y : ndarray) : veqb x y = true -> veq x y.
Proof.
  unfold veq. revert y.
  induction x as [|a x IH]; intros [|b y] H; cbn [veqb] in H;
    try discriminate; [constructor|].
  apply andb_prop in H. destruct H as [Hab Hxy].
  constructor; [now apply Qeq_bool_iff|now apply IH].
Qed.

Lemma imex_example :
  exists A s',
    laplacian_discretization 2 = Ok A /\
    imex_solver_iteration A 1 1 (f_alias 1 0 0 1 1 0) (g_alias 1 0 0 1 1 0) 1 1
      ([10; -9 # 2; -9 # 2; 0], [0; 0; 0; 0])%Q s' /\
    (item (fst s') 0 == -5 # 2)%Q.
Proof.
  assert (E :
    match laplacian_discretization 2 with
    | Ok A =>
        match be_system A 1 1 1 with
        | Ok M =>
            match matvec M [1; 0; 0; 0]%Q, matvec M [0; 0; 0; 0]%Q with
            | Ok y1, Ok y2 =>
                veqb y1 [10; -9 # 2; -9 # 2; 0]%Q && veqb y2 [0; 0; 0; 0]%Q
            | _, _ => false
            end
        | Raise _ => false
        end
        && match forward_euler_step [1; 0; 0; 0]%Q [0; 0; 0; 0]%Q 1 A 1
                   (f_alias 1 0 0 1 1 0) (g_alias 1 0 0 1 1 0)
                   D1_default D2_default with
           | Ok s' => Qeq_bool (item (fst s') 0) (-5 # 2)
           | Raise _ => false
           end
    | Raise _ => false
    end = true) by (vm_compute; reflexivity).
  destruct (laplacian_discretization 2) as [A|e]; [|discriminate E].
  apply andb_prop in E. destruct E as [Esolve Estep].
  destruct (be_system A 1 1 1) as [M|e] eqn:EM; [|discriminate Esolve].
  destruct (matvec M [1; 0; 0; 0]%Q) as [y1|e] eqn:Ey1; [|discriminate Esolve].
  destruct (matvec M [0; 0; 0; 0]%Q) as [y2|e] eqn:Ey2; [|discriminate Esolve].
  apply andb_prop in Esolve. destruct Esolve as [Hy1 Hy2].
  destruct (forward_euler_step [1; 0; 0; 0]%Q [0; 0; 0; 0]%Q 1 A 1
              (f_alias 1 0 0 1 1 0) (g_alias 1 0 0 1 1 0)
              D1_default D2_default) as [s'|e] eqn:Es'; [|discriminate Estep].
  exists A, s'. split; [reflexivity|]. split.
  - exists ([1; 0; 0; 0], [0; 0; 0; 0])%Q. split; [|exact Es'].
    exists M, M. cbn [fst snd]. repeat split; try exact EM.
    + exists y1. split; [exact Ey1|now apply veqb_veq].
    + exists y2. split; [exact Ey2|now apply veqb_veq].
  - now apply Qeq_bool_iff.
Qed.

Lemma veq_head (x y : ndarray) (a : Q) :
  veq x (a :: y) -> (item x 0 == a)%Q.
Proof. intros H. inversion H; subst. assumption. Qed.

(** C2 as stated fails: on this input the state after the iteration is not
    U_n + delta_t f(U_n, V_n); its first entry is -5/2, not 20. *)
Lemma imex_second_phase_not_reaction_only :
  exists A s',
    laplacian_discretization 2 = Ok A /\
    imex_solver_iteration A 1 1 (f_alias 1 0 0 1 1 0) (g_alias 1 0 0 1 1 0) 1 1
      ([10; -9 # 2; -9 # 2; 0], [0; 0; 0; 0])%Q s' /\
    ~ (exists s'',
         forward_euler_reaction_step
           [10; -9 # 2; -9 # 2; 0]%Q [0; 0; 0; 0]%Q 1
           (f_alias 1 0 0 1 1 0) (g_alias 1 0 0 1 1 0) = Ok s'' /\
         veq (fst s') (fst s'') /\ veq (snd s') (snd s'')).
Proof.
  destruct imex_example as (A & s' & EA & Hit & Hfirst).
  exists A, s'. split; [exact EA|]. split; [exact Hit|].
  intros (s'' & E & HU & _).
  vm_compute in E. injection E as <-. cbn [fst] in HU.
  apply veq_head in HU. rewrite Hfirst in HU. vm_compute in HU.
  discriminate HU.
Qed.

Lemma imex_second_phase_witness :
  exists A s',
    laplacian_discretization 2 = Ok A /\
    imex_solver_iteration A 1 1 (f_alias 1 0 0 1 1 0) (g_alias 1 0 0 1 1 0) 1 1
      ([10; -9 # 2; -9 # 2; 0], [0; 0; 0; 0])%Q s' /\
    exists Us Vs F G s0,
      backward_euler_diffusion_step
        [10; -9 # 2; -9 # 2; 0]%Q [0; 0; 0; 0]%Q A 1 1 1 1 (Us, Vs) /\
      f_alias 1 0 0 1 1 0 Us Vs = Ok F /\
      g_alias 1 0 0 1 1 0 Us Vs = Ok G /\
      forward_euler_step Us Vs 1 A 1 zero_reaction zero_reaction
        D1_default D2_default = Ok s0 /\
      veq (fst s') (map2 Qplus (fst s0) (scal 1%Q F)) /\
      veq (snd s') (map2 Qplus (snd s0) (scal 1%Q G)).
Proof.
  destruct imex_example as (A & s' & EA & Hit & _).
  exists A, s'. split; [exact EA|]. split; [exact Hit|].
  apply (imex_second_phase A 1 1 (f_alias 1 0 0 1 1 0) (g_alias 1 0 0 1 1 0)
           1 1 ([10; -9 # 2; -9 # 2; 0], [0; 0; 0; 0])%Q s').
  - destruct (laplacian_shape 2 A ltac:(lia) EA). congruence.
  - apply f_alias_shape.
  - apply g_alias_shape.
  - exact Hit.
Defined.

(** * Further properties of the operator and the steppers *)

(** ** Arrays, entry by entry *)

Lemma item_map (f : Q -> Q) (x : ndarray) (i : Z) :
  0 <= i < Z.of_nat (length x) -> item (map f x) i = f (item x i).
Proof.
  intros Hi. unfold item.
  rewrite (nth_indep _ 0%Q (f 0%Q)) by (rewrite length_map; lia).
  apply map_nth.
Qed.

Lemma item_map2 (op : Q -> Q -> Q) (x y : ndarray) (i : Z) :
  length x = length y -> 0 <= i < Z.of_nat (length x) ->
  item (map2 op x y) i = op (item x i) (item y i).
Proof.
  unfold item. intros Hlen Hi.
  assert (Hk : (Z.to_nat i < length x)%nat) by lia.
  clear Hi. revert y Hlen Hk. generalize (Z.to_nat i) as k.
  induction x as [|a x IH]; intros k [|b y] Hlen Hk; cbn in *;
    try discriminate; try lia.
  destruct k as [|k]; [reflexivity|]. apply IH; [now injection Hlen|lia].
Qed.

Lemma item_map_range (f : Z -> Q) (n i : Z) :
  0 <= i < n -> item (map f (range n)) i = f i.
Proof.
  intros Hi. unfold item, range. rewrite map_map.
  rewrite (nth_indep _ 0%Q (f (Z.of_nat 0)))
    by (rewrite length_map, length_seq; lia).
  rewrite (map_nth (fun k => f (Z.of_nat k))), seq_nth by lia.
  f_equal. lia.
Qed.

Lemma veq_length (x y : ndarray) : veq x y -> length x = length y.
Proof. intros H. induction H; cbn; congruence. Qed.

Lemma veq_item (x y : ndarray) (i : Z) : veq x y -> (item x i == item y i)%Q.
Proof.
  unfold item. generalize (Z.to_nat i) as k. intros k H. revert k.
  induction H as [|a b x y Hab Hxy IH]; intros [|k]; cbn;
    try reflexivity; [assumption|apply IH].
Qed.

Lemma veq_of_items (x y : ndarray) :
  length x = length y ->
  (forall i, 0 <= i < Z.of_nat (length x) -> (item x i == item y i)%Q) ->
  veq x y.
Proof.
  unfold veq, item. revert y.
  induction x as [|a x IH]; intros [|b y] Hlen H; cbn in Hlen;
    try discriminate; constructor.
  - apply (H 0). cbn [length]. lia.
  - apply IH; [now injection Hlen|]. intros i Hi.
    specialize (H (i + 1) ltac:(cbn [length]; lia)).
    replace (Z.to_nat (i + 1)) with (S (Z.to_nat i)) in H by lia. exact H.
Qed.

Lemma vsum_veq (x y : ndarray) : veq x y -> (vsum x == vsum y)%Q.
Proof.
  unfold vsum. intros H. induction H as [|a b x y Hab Hxy IH];
    cbn [fold_right]; [reflexivity|]. now rewrite Hab, IH.
Qed.

Lemma vsum_items (x : ndarray) :
  (vsum x == sumQ (item x) (range (Z.of_nat (length x))))%Q.
Proof.
  rewrite <- vsum_map. apply vsum_veq. apply veq_of_items.
  - now rewrite length_map, range_length, Nat2Z.id.
  - intros i Hi. now rewrite item_map_range.
Qed.

Lemma row_dot_scale (k : Q) (A : spmatrix) (x : ndarray) (i : Z) :
  (row_dot (sp_scale k A) x i == k * row_dot A x i)%Q.
Proof.
  unfold row_dot. cbn [ncols get sp_scale]. rewrite <- sumQ_scale.
  apply sumQ_ext. intros. ring.
Qed.

Lemma matvec_ok (A : spmatrix) (x : ndarray) :
  Z.of_nat (length x) = ncols A ->
  matvec A x = Ok (map (row_dot A x) (range (nrows A))).
Proof. intros H. unfold matvec. now rewrite H, Z.eqb_refl. Qed.

(** ** The operator applied to a field *)

(** X1: for every m >= 2, entry (i, j) of the matrix is -4 on the diagonal
    plus the number of the four neighbour directions of i that land on j,
    over dx^2; this covers m = 2, where directions coincide. *)
Theorem laplacian_entry_counts_directions (m : Z) :
  2 <= m ->
  exists A, laplacian_discretization m = Ok A /\
    nrows A = m * m /\ ncols A = m * m /\
    forall i j, 0 <= i < m * m -> 0 <= j < m * m ->
      (get A i j == (-4 * ind (j =? i) + hits m i j) / delta_x2 m)%Q.
Proof.
  intros Hm. destruct (laplacian_returns m Hm) as [A EA]. exists A.
  destruct (laplacian_shape m A Hm EA) as [Hr Hc].
  repeat split; try assumption. now apply laplacian_get.
Qed.

Lemma laplacian_entry_counts_directions_witness :
  exists A, laplacian_discretization 2 = Ok A /\
    nrows A = 2 * 2 /\ ncols A = 2 * 2 /\
    forall i j, 0 <= i < 2 * 2 -> 0 <= j < 2 * 2 ->
      (get A i j == (-4 * ind (j =? i) + hits 2 i j) / delta_x2 2)%Q.
Proof. apply (laplacian_entry_counts_directions 2). lia. Defined.

Lemma laplacian_matvec (m : Z) (A : spmatrix) (x : ndarray) :
  2 <= m -> laplacian_discretization m = Ok A ->
  length x = Z.to_nat (m * m) ->
  exists y, matvec A x = Ok y /\ length y = Z.to_nat (m * m) /\
    (forall i, 0 <= i < m * m -> (item y i == stencil m x i)%Q) /\
    (vsum y == 0)%Q.
Proof.
  intros Hm EA Hx. destruct (laplacian_shape m A Hm EA) as [Hr Hc].
  rewrite matvec_ok, Hr by nia. eexists. split; [reflexivity|].
  split; [now rewrite length_map, range_length|]. split.
  - intros i Hi. rewrite item_map_range by assumption.
    now apply laplacian_row_dot.
  - rewrite vsum_map.
    rewrite <- (diffusion_term_sum m A 1 x Hm EA).
    apply sumQ_ext. intros i _. rewrite row_dot_scale. ring.
Qed.

(** X2: for every m >= 2 and every field x of length m^2, the product of
    the matrix with x is the five-point stencil of x with periodic wrap:
    entry i is (x[up] + x[down] + x[left] + x[right] - 4 x[i]) / dx^2. *)
Theorem laplacian_applies_stencil (m : Z) (x : ndarray) :
  2 <= m -> length x = Z.to_nat (m * m) ->
  exists A y, laplacian_discretization m = Ok A /\ matvec A x = Ok y /\
    length y = Z.to_nat (m * m) /\
    forall i, 0 <= i < m * m -> (item y i == stencil m x i)%Q.
Proof.
  intros Hm Hx. destruct (laplacian_returns m Hm) as [A EA].
  destruct (laplacian_matvec m A x Hm EA Hx) as (y & Ey & Ly & Hy & _).
  exists A, y. repeat split; assumption.
Qed.

Lemma laplacian_applies_stencil_witness :
  exists A y, laplacian_discretization 3 = Ok A /\
    matvec A (map inject_Z (range 9)) = Ok y /\
    length y = Z.to_nat (3 * 3) /\
    forall i, 0 <= i < 3 * 3 ->
      (item y i == stencil 3 (map inject_Z (range 9)) i)%Q.
Proof.
  apply (laplacian_applies_stencil 3 (map inject_Z (range 9)));
    [lia|reflexivity].
Defined.

(** X3: for every m >= 2 and every field x of length m^2, the entries of
    the product of the matrix with x sum to zero. *)
Theorem laplacian_product_sums_to_zero (m : Z) (x : ndarray) :
  2 <= m -> length x = Z.to_nat (m * m) ->
  exists A y, laplacian_discretization m = Ok A /\ matvec A x = Ok y /\
    (vsum y == 0)%Q.
Proof.
  intros Hm Hx. destruct (laplacian_returns m Hm) as [A EA].
  destruct (laplacian_matvec m A x Hm EA Hx) as (y & Ey & _ & _ & Hy).
  exists A, y. repeat split; assumption.
Qed.

Lemma laplacian_product_sums_to_zero_witness :
  exists A y, laplacian_discretization 3 = Ok A /\
    matvec A (map inject_Z (range 9)) = Ok y /\ (vsum y == 0)%Q.
Proof.
  apply (laplacian_product_sums_to_zero 3 (map inject_Z (range 9)));
    [lia|reflexivity].
Defined.

(** ** One explicit step on the periodic grid *)

Lemma euler_update_entries (m : Z) (A : spmatrix) (U F : ndarray)
  (delta_t sigma D : Q) :
  2 <= m -> laplacian_discretization m = Ok A ->
  length U = Z.to_nat (m * m) -> length F = Z.to_nat (m * m) ->
  exists U', euler_update U delta_t A sigma D (Ok F) = Ok U' /\
    length U' = Z.to_nat (m * m) /\
    (forall i, 0 <= i < m * m ->
       (item U' i
        == item U i + delta_t * (sigma * D * stencil m U i + item F i))%Q) /\
    (vsum U' == vsum U + delta_t * vsum F)%Q.
Proof.
  intros Hm EA HU HF. destruct (laplacian_shape m A Hm EA) as [Hr Hc].
  unfold euler_update.
  rewrite matvec_ok by (cbn [ncols sp_scale]; nia).
  cbn [nrows sp_scale bind add scal Numeric_ndarray]. rewrite Hr.
  set (AU := map (row_dot (sp_scale (sigma * D) A) U) (range (m * m))).
  assert (HAU : length AU = Z.to_nat (m * m))
    by (unfold AU; now rewrite length_map, range_length).
  rewrite (broadcast2_same Qplus AU F) by congruence. cbn [bind].
  assert (HR : length (map (Qmult delta_t) (map2 Qplus AU F))
               = Z.to_nat (m * m))
    by (rewrite length_map, map2_length; congruence).
  rewrite broadcast2_same by congruence.
  eexists. split; [reflexivity|]. split; [|split].
  - rewrite map2_length; congruence.
  - intros i Hi.
    rewrite item_map2, item_map, item_map2 by (try congruence; try lia;
      rewrite map2_length; try congruence; lia).
    unfold AU. rewrite item_map_range, row_dot_scale by assumption.
    rewrite (laplacian_row_dot m A U i Hm EA Hi). unfold stencil. ring.
  - rewrite vsum_map2_plus by congruence.
    rewrite vsum_scal, vsum_map2_plus by congruence.
    unfold AU. rewrite vsum_map, (diffusion_term_sum m A _ U Hm EA). ring.
Qed.

Lemma forward_euler_step_entries (m : Z) (A : spmatrix) (U V F G : ndarray)
  (delta_t sigma D1 D2 : Q) (f g : reaction) :
  2 <= m -> laplacian_discretization m = Ok A ->
  length U = Z.to_nat (m * m) -> length V = Z.to_nat (m * m) ->
  f U V = Ok F -> length F = Z.to_nat (m * m) ->
  g U V = Ok G -> length G = Z.to_nat (m * m) ->
  exists U' V',
    forward_euler_step U V delta_t A sigma f g D1 D2 = Ok (U', V') /\
    length U' = Z.to_nat (m * m) /\ length V' = Z.to_nat (m * m) /\
    (forall i, 0 <= i < m * m ->
       (item U' i
        == item U i + delta_t * (sigma * D1 * stencil m U i + item F i))%Q /\
       (item V' i
        == item V i + delta_t * (sigma * D2 * stencil m V i + item G i))%Q) /\
    (vsum U' == vsum U + delta_t * vsum F)%Q /\
    (vsum V' == vsum V + delta_t * vsum G)%Q.
Proof.
  intros Hm EA HU HV EF HF EG HG. unfold forward_euler_step. rewrite EF, EG.
  destruct (euler_update_entries m A U F delta_t sigma D1 Hm EA HU HF)
    as (U' & EU & LU & IU & SU).
  destruct (euler_update_entries m A V G delta_t sigma D2 Hm EA HV HG)
    as (V' & EV & LV & IV & SV).
  rewrite EU, EV. cbn [bind]. exists U', V'.
  split; [reflexivity|]. split; [exact LU|]. split; [exact LV|].
  split; [|split; assumption].
  intros i Hi. split; [now apply IU|now apply IV].
Qed.

(** X4: on the grid of laplacian_discretization(m), m >= 2, with fields of
    length m^2 and reaction terms F = f(U, V), G = g(U, V) of the same
    length, forward_euler_step returns, entry by entry,
    U[i] + delta_t (sigma D1 stencil(U)[i] + F[i]) and
    V[i] + delta_t (sigma D2 stencil(V)[i] + G[i]). *)
Theorem forward_euler_step_is_stencil_update (m : Z) (U V F G : ndarray)
  (delta_t sigma D1 D2 : Q) (f g : reaction) :
  2 <= m -> length U = Z.to_nat (m * m) -> length V = Z.to_nat (m * m) ->
  f U V = Ok F -> length F = Z.to_nat (m * m) ->
  g U V = Ok G -> length G = Z.to_nat (m * m) ->
  exists A U' V',
    laplacian_discretization m = Ok A /\
    forward_euler_step U V delta_t A sigma f g D1 D2 = Ok (U', V') /\
    length U' = Z.to_nat (m * m) /\ length V' = Z.to_nat (m * m) /\
    forall i, 0 <= i < m * m ->
      (item U' i
       == item U i + delta_t * (sigma * D1 * stencil m U i + item F i))%Q /\
      (item V' i
       == item V i + delta_t * (sigma * D2 * stencil m V i + item G i))%Q.
Proof.
  intros Hm HU HV EF HF EG HG. destruct (laplacian_returns m Hm) as [A EA].
  destruct (forward_euler_step_entries m A U V F G delta_t sigma D1 D2 f g
              Hm EA HU HV EF HF EG HG)
    as (U' & V' & E & LU & LV & Hi & _).
  exists A, U', V'. repeat split; try assumption; now apply Hi.
Qed.

(** X5: under the same conditions one forward_euler_step changes the sum
    of U by delta_t times the sum of f(U, V), and the sum of V by delta_t
    times the sum of g(U, V): the diffusion term moves mass, it does not
    create any. *)
Theorem forward_euler_step_mass_balance (m : Z) (U V F G : ndarray)
  (delta_t sigma D1 D2 : Q) (f g : reaction) :
  2 <= m -> length U = Z.to_nat (m * m) -> length V = Z.to_nat (m * m) ->
  f U V = Ok F -> length F = Z.to_nat (m * m) ->
  g U V = Ok G -> length G = Z.to_nat (m * m) ->
  exists A U' V',
    laplacian_discretization m = Ok A /\
    forward_euler_step U V delta_t A sigma f g D1 D2 = Ok (U', V') /\
    (vsum U' == vsum U + delta_t * vsum F)%Q /\
    (vsum V' == vsum V + delta_t * vsum G)%Q.
Proof.
  intros Hm HU HV EF HF EG HG. destruct (laplacian_returns m Hm) as [A EA].
  destruct (forward_euler_step_entries m A U V F G delta_t sigma D1 D2 f g
              Hm EA HU HV EF HF EG HG)
    as (U' & V' & E & _ & _ & _ & SU & SV).
  exists A, U', V'. repeat split; assumption.
Qed.

Lemma forward_euler_step_is_stencil_update_witness :
  exists A U' V',
    laplacian_discretization 2 = Ok A /\
    forward_euler_step [0; 1; 2; 3]%Q [1; 1; 0; 0]%Q (1 # 100) A 1
      (fun _ V => Ok V) zero_reaction (1 # 2) 1 = Ok (U', V') /\
    length U' = Z.to_nat (2 * 2) /\ length V' = Z.to_nat (2 * 2) /\
    forall i, 0 <= i < 2 * 2 ->
      (item U' i
       == item [0; 1; 2; 3] i
          + (1 # 100) * (1 * (1 # 2) * stencil 2 [0; 1; 2; 3] i
                         + item [1; 1; 0; 0] i))%Q /\
      (item V' i
       == item [1; 1; 0; 0] i
          + (1 # 100) * (1 * 1 * stencil 2 [1; 1; 0; 0] i
                         + item [0; 0; 0; 0] i))%Q.
Proof.
  apply (forward_euler_step_is_stencil_update 2
           [0; 1; 2; 3]%Q [1; 1; 0; 0]%Q [1; 1; 0; 0]%Q [0; 0; 0; 0]%Q);
    [lia | reflexivity ..].
Defined.

Lemma forward_euler_step_mass_balance_witness :
  exists A U' V',
    laplacian_discretization 2 = Ok A /\
    forward_euler_step [0; 1; 2; 3]%Q [1; 1; 0; 0]%Q (1 # 100) A 1
      (fun _ V => Ok V) zero_reaction (1 # 2) 1 = Ok (U', V') /\
    (vsum U' == vsum [0; 1; 2; 3] + (1 # 100) * vsum [1; 1; 0; 0])%Q /\
    (vsum V' == vsum [1; 1; 0; 0] + (1 # 100) * vsum [0; 0; 0; 0])%Q.
Proof.
  apply (forward_euler_step_mass_balance 2
           [0; 1; 2; 3]%Q [1; 1; 0; 0]%Q [1; 1; 0; 0]%Q [0; 0; 0; 0]%Q);
    [lia | reflexivity ..].
Defined.

(** ** Stability of the explicit diffusion step *)

Lemma bounded_item (lo hi : Q) (x : ndarray) (i : Z) :
  bounded lo hi x -> 0 <= i < Z.of_nat (length x) ->
  (lo <= item x i)%Q /\ (item x i <= hi)%Q.
Proof.
  intros Hb Hi. unfold bounded in Hb. rewrite Forall_forall in Hb.
  apply Hb. unfold item. apply nth_In. lia.
Qed.

Lemma bounded_of_items (lo hi : Q) (x : ndarray) :
  (forall i, 0 <= i < Z.of_nat (length x) ->
     (lo <= item x i)%Q /\ (item x i <= hi)%Q) ->
  bounded lo hi x.
Proof.
  intros H. apply Forall_forall. intros q Hq.
  destruct (In_nth x q 0%Q Hq) as (k & Hk & <-).
  specialize (H (Z.of_nat k) ltac:(lia)). unfold item in H.
  now rewrite Nat2Z.id in H.
Qed.

Lemma convex_step_upper (u S w hi : Q) :
  (0 <= w)%Q -> (4 * w <= 1)%Q -> (u <= hi)%Q -> (S <= 4 * hi)%Q ->
  (u + w * (S - 4 * u) <= hi)%Q.
Proof.
  intros Hw Hw4 Hu HS.
  assert (H1 : (0 <= (1 - 4 * w) * (hi - u))%Q)
    by (apply Qmult_le_0_compat; lra).
  assert (H2 : (0 <= w * (4 * hi - S))%Q)
    by (apply Qmult_le_0_compat; lra).
  apply Qle_minus_iff.
  setoid_replace (hi + - (u + w * (S - 4 * u)))%Q
    with ((1 - 4 * w) * (hi - u) + w * (4 * hi - S))%Q by ring.
  lra.
Qed.

Lemma convex_step_lower (u S w lo : Q) :
  (0 <= w)%Q -> (4 * w <= 1)%Q -> (lo <= u)%Q -> (4 * lo <= S)%Q ->
  (lo <= u + w * (S - 4 * u))%Q.
Proof.
  intros Hw Hw4 Hu HS.
  assert (H1 : (0 <= (1 - 4 * w) * (u - lo))%Q)
    by (apply Qmult_le_0_compat; lra).
  assert (H2 : (0 <= w * (S - 4 * lo))%Q)
    by (apply Qmult_le_0_compat; lra).
  apply Qle_minus_iff.
  setoid_replace (u + w * (S - 4 * u) + - lo)%Q
    with ((1 - 4 * w) * (u - lo) + w * (S - 4 * lo))%Q by ring.
  lra.
Qed.

Lemma neighbour_sum_bounds (m : Z) (x : ndarray) (lo hi : Q) (i : Z) :
  2 <= m -> length x = Z.to_nat (m * m) -> bounded lo hi x ->
  0 <= i < m * m ->
  (4 * lo <= sumQ (item x) (neighbours m i))%Q /\
  (sumQ (item x) (neighbours m i) <= 4 * hi)%Q.
Proof.
  intros Hm Hx Hb Hi.
  pose proof (neighbours_in_range m i ltac:(lia) Hi) as Hn.
  assert (Hall : forall n, In n (neighbours m i) ->
                   (lo <= item x n)%Q /\ (item x n <= hi)%Q).
  { intros n Hin. specialize (Hn n Hin). apply bounded_item; [assumption|lia]. }
  unfold neighbours in *. cbn [sumQ fold_right].
  pose proof (Hall _ (or_introl eq_refl)).
  pose proof (Hall _ (or_intror (or_introl eq_refl))).
  pose proof (Hall _ (or_intror (or_intror (or_introl eq_refl)))).
  pose proof (Hall _ (or_intror (or_intror (or_intror (or_introl eq_refl))))).
  lra.
Qed.

Lemma diffusion_update_bounded (m : Z) (A : spmatrix) (U W W' : ndarray)
  (delta_t sigma D lo hi : Q) :
  2 <= m -> laplacian_discretization m = Ok A ->
  length U = Z.to_nat (m * m) -> length W = Z.to_nat (m * m) ->
  (0 <= delta_t * sigma * D)%Q ->
  (4 * (delta_t * sigma * D) <= delta_x2 m)%Q ->
  bounded lo hi U ->
  exists U', euler_update U delta_t A sigma D (zero_reaction W W') = Ok U' /\
    length U' = Z.to_nat (m * m) /\ bounded lo hi U'.
Proof.
  intros Hm EA HU HW Hk0 Hk4 Hb. unfold zero_reaction.
  pose proof (delta_x2_pos m Hm) as Hd.
  assert (Hd0 : ~ (delta_x2 m == 0)%Q) by lra.
  destruct (euler_update_entries m A U (map (fun _ => 0%Q) W) delta_t sigma D
              Hm EA HU ltac:(rewrite length_map; exact HW))
    as (U' & EU & LU & IU & _).
  exists U'. split; [exact EU|]. split; [exact LU|].
  apply bounded_of_items. intros i Hi. rewrite LU in Hi.
  assert (Hi' : 0 <= i < m * m) by nia.
  destruct (bounded_item lo hi U i Hb ltac:(lia)) as [Hlo Hhi].
  destruct (neighbour_sum_bounds m U lo hi i Hm HU Hb Hi') as [HSlo HShi].
  set (w := (delta_t * sigma * D / delta_x2 m)%Q).
  assert (Hw : (0 <= w)%Q) by (apply Qle_shift_div_l; lra).
  assert (Hw4 : (4 * w <= 1)%Q).
  { assert (w <= 1 # 4)%Q; [|lra]. apply Qle_shift_div_r; [assumption|]. lra. }
  assert (E : (item U' i
               == item U i
                  + w * (sumQ (item U) (neighbours m i) - 4 * item U i))%Q).
  { rewrite (IU i Hi'), item_map by lia. unfold stencil, w. field.
    exact Hd0. }
  rewrite E. split.
  - now apply convex_step_lower.
  - now apply convex_step_upper.
Qed.

(** X6: with no reaction and with 0 <= delta_t sigma D1 <= dx^2 / 4 and
    0 <= delta_t sigma D2 <= dx^2 / 4, one forward_euler_step on the grid of
    laplacian_discretization(m), m >= 2, keeps every entry of U, and of V,
    between the bounds its entries had before: the explicit diffusion step
    creates no new extrema. *)
Theorem explicit_diffusion_keeps_bounds (m : Z) (U V : ndarray)
  (delta_t sigma D1 D2 lo hi lo' hi' : Q) :
  2 <= m -> length U = Z.to_nat (m * m) -> length V = Z.to_nat (m * m) ->
  (0 <= delta_t * sigma * D1)%Q ->
  (4 * (delta_t * sigma * D1) <= delta_x2 m)%Q ->
  (0 <= delta_t * sigma * D2)%Q ->
  (4 * (delta_t * sigma * D2) <= delta_x2 m)%Q ->
  bounded lo hi U -> bounded lo' hi' V ->
  exists A U' V',
    laplacian_discretization m = Ok A /\
    forward_euler_step U V delta_t A sigma zero_reaction zero_reaction D1 D2
    = Ok (U', V') /\
    bounded lo hi U' /\ bounded lo' hi' V'.
Proof.
  intros Hm HU HV H1 H1' H2 H2' HbU HbV.
  destruct (laplacian_returns m Hm) as [A EA].
  destruct (diffusion_update_bounded m A U U V delta_t sigma D1 lo hi
              Hm EA HU HU H1 H1' HbU) as (U' & EU & _ & HU').
  destruct (diffusion_update_bounded m A V U V delta_t sigma D2 lo' hi'
              Hm EA HV HU H2 H2' HbV) as (V' & EV & _ & HV').
  exists A, U', V'. split; [exact EA|]. split; [|split; assumption].
  unfold forward_euler_step. rewrite EU, EV. reflexivity.
Qed.

Lemma explicit_diffusion_keeps_bounds_witness :
  exists A U' V',
    laplacian_discretization 2 = Ok A /\
    forward_euler_step [0; 1; 2; 3]%Q [1; 1; 0; 0]%Q (1 # 10) A 1
      zero_reaction zero_reaction (1 # 2) 1 = Ok (U', V') /\
    bounded 0 3 U' /\ bounded 0 1 V'.
Proof.
  apply (explicit_diffusion_keeps_bounds 2 [0; 1; 2; 3]%Q [1; 1; 0; 0]%Q
           (1 # 10) 1 (1 # 2) 1 0 3 0 1);
    try reflexivity; try lia; try (vm_compute; discriminate);
    unfold bounded; repeat constructor; vm_compute; discriminate.
Defined.

(** ** The implicit diffusion step *)

Lemma laplacian_rows_total (m : Z) (A : spmatrix) (x : ndarray) :
  2 <= m -> laplacian_discretization m = Ok A ->
  (sumQ (row_dot A x) (range (m * m)) == 0)%Q.
Proof.
  intros Hm EA. rewrite <- (diffusion_term_sum m A 1 x Hm EA).
  apply sumQ_ext. intros i _. rewrite row_dot_scale. ring.
Qed.

Lemma solves_rows (m : Z) (A M : spmatrix) (delta_t sigma D : Q)
  (b x : ndarray) :
  2 <= m -> laplacian_discretization m = Ok A ->
  be_system A delta_t sigma D = Ok M -> solves M b x ->
  length x = Z.to_nat (m * m) /\ length b = Z.to_nat (m * m) /\
  forall i, 0 <= i < m * m -> (row_dot M x i == item b i)%Q.
Proof.
  intros Hm EA EM (y & Ey & Hy).
  destruct (be_system_shape m A M _ _ _ Hm EA EM) as [Hr Hc].
  apply matvec_inv in Ey. destruct Ey as [Hlen ->]. rewrite Hr in Hy.
  split; [lia|]. split.
  - rewrite <- (veq_length _ _ Hy). now rewrite length_map, range_length.
  - intros i Hi. rewrite <- (veq_item _ _ i Hy).
    now rewrite item_map_range.
Qed.

Lemma be_system_upper (m : Z) (A M : spmatrix) (delta_t sigma D B : Q)
  (b x : ndarray) :
  2 <= m -> (0 < delta_t)%Q -> (0 < sigma)%Q -> (0 < D)%Q ->
  laplacian_discretization m = Ok A ->
  be_system A delta_t sigma D = Ok M -> solves M b x ->
  (forall j, 0 <= j < m * m -> (item b j <= B)%Q) ->
  forall i, 0 <= i < m * m -> (item x i <= B)%Q.
Proof.
  intros Hm Hdt Hs HD EA EM Hsol HB.
  destruct (solves_rows m A M _ _ _ b x Hm EA EM Hsol) as (Hx & Hb & Hrows).
  pose proof (delta_x2_pos m Hm) as Hd.
  assert (Hk : (0 < delta_t * sigma * D)%Q)
    by (repeat apply Qmult_lt_0_compat; assumption).
  assert (Hne : range (m * m) <> []).
  { intros E. apply (f_equal (@length Z)) in E.
    rewrite range_length in E. cbn [length] in E. nia. }
  destruct (list_argmax (item x) _ Hne) as (hi & Hhi & Hmax).
  apply in_range_iff in Hhi.
  assert (Hup : (item x hi <= item b hi)%Q).
  { apply (max_principle_bound _ (sumQ (item x) (neighbours m hi))
             (delta_t * sigma * D) (delta_x2 m)); try assumption.
    - pose proof (neighbours_in_range m hi ltac:(lia) Hhi) as Hn.
      assert (Hall : forall n, In n (neighbours m hi) ->
                       (item x n <= item x hi)%Q)
        by (intros n Hin; apply Hmax, in_range_iff, Hn, Hin).
      unfold neighbours in *. cbn [sumQ fold_right].
      pose proof (Hall _ (or_introl eq_refl)).
      pose proof (Hall _ (or_intror (or_introl eq_refl))).
      pose proof (Hall _ (or_intror (or_intror (or_introl eq_refl)))).
      pose proof
        (Hall _ (or_intror (or_intror (or_intror (or_introl eq_refl))))).
      lra.
    - rewrite <- (Hrows hi Hhi). now apply (be_system_row m A M). }
  intros i Hi. apply in_range_iff in Hi.
  pose proof (Hmax i Hi). pose proof (HB hi Hhi). lra.
Qed.

Lemma be_system_lower (m : Z) (A M : spmatrix) (delta_t sigma D B : Q)
  (b x : ndarray) :
  2 <= m -> (0 < delta_t)%Q -> (0 < sigma)%Q -> (0 < D)%Q ->
  laplacian_discretization m = Ok A ->
  be_system A delta_t sigma D = Ok M -> solves M b x ->
  (forall j, 0 <= j < m * m -> (B <= item b j)%Q) ->
  forall i, 0 <= i < m * m -> (B <= item x i)%Q.
Proof.
  intros Hm Hdt Hs HD EA EM Hsol HB.
  destruct (solves_rows m A M _ _ _ b x Hm EA EM Hsol) as (Hx & Hb & Hrows).
  pose proof (delta_x2_pos m Hm) as Hd.
  assert (Hk : (0 < delta_t * sigma * D)%Q)
    by (repeat apply Qmult_lt_0_compat; assumption).
  assert (Hne : range (m * m) <> []).
  { intros E. apply (f_equal (@length Z)) in E.
    rewrite range_length in E. cbn [length] in E. nia. }
  destruct (list_argmax (fun i => - item x i)%Q _ Hne) as (lo & Hlo & Hmin).
  apply in_range_iff in Hlo.
  assert (Hdown : (item b lo <= item x lo)%Q).
  { apply (min_principle_bound _ (sumQ (item x) (neighbours m lo))
             (delta_t * sigma * D) (delta_x2 m)); try assumption.
    - pose proof (neighbours_in_range m lo ltac:(lia) Hlo) as Hn.
      assert (Hall : forall n, In n (neighbours m lo) ->
                       (item x lo <= item x n)%Q).
      { intros n Hin.
        pose proof (Hmin n (proj2 (in_range_iff _ _) (Hn n Hin))) as Hle.
        cbv beta in Hle. lra. }
      unfold neighbours in *. cbn [sumQ fold_right].
      pose proof (Hall _ (or_introl eq_refl)).
      pose proof (Hall _ (or_intror (or_introl eq_refl))).
      pose proof (Hall _ (or_intror (or_intror (or_introl eq_refl)))).
      pose proof
        (Hall _ (or_intror (or_intror (or_intror (or_introl eq_refl))))).
      lra.
    - rewrite <- (Hrows lo Hlo). now apply (be_system_row m A M). }
  intros i Hi. apply in_range_iff in Hi.
  pose proof (Hmin i Hi) as Hle. cbv beta in Hle.
  pose proof (HB lo Hlo). lra.
Qed.

Lemma solves_bounded (m : Z) (A M : spmatrix) (delta_t sigma D lo hi : Q)
  (b x : ndarray) :
  2 <= m -> (0 < delta_t)%Q -> (0 < sigma)%Q -> (0 < D)%Q ->
  laplacian_discretization m = Ok A ->
  be_system A delta_t sigma D = Ok M -> solves M b x ->
  bounded lo hi b -> bounded lo hi x.
Proof.
  intros Hm Hdt Hs HD EA EM Hsol Hb.
  destruct (solves_rows m A M _ _ _ b x Hm EA EM Hsol) as (Hx & Hlb & _).
  apply bounded_of_items. intros i Hi. split.
  - apply (be_system_lower m A M delta_t sigma D lo b x); try assumption;
      [|nia]. intros j Hj. apply (bounded_item lo hi b j Hb). nia.
  - apply (be_system_upper m A M delta_t sigma D hi b x); try assumption;
      [|nia]. intros j Hj. apply (bounded_item lo hi b j Hb). nia.
Qed.

Lemma solves_unique (m : Z) (A M : spmatrix) (delta_t sigma D : Q)
  (b x x' : ndarray) :
  2 <= m -> (0 < delta_t)%Q -> (0 < sigma)%Q -> (0 < D)%Q ->
  laplacian_discretization m = Ok A ->
  be_system A delta_t sigma D = Ok M ->
  solves M b x -> solves M b x' -> veq x x'.
Proof.
  intros Hm Hdt Hs HD EA EM Hsol Hsol'.
  destruct (solves_rows m A M _ _ _ b x Hm EA EM Hsol) as (Hx & _ & Hrows).
  destruct (solves_rows m A M _ _ _ b x' Hm EA EM Hsol') as (Hx' & _ & Hrows').
  destruct (be_system_shape m A M _ _ _ Hm EA EM) as [Hr Hc].
  set (d := map2 Qminus x x').
  assert (Hd : forall i, 0 <= i < m * m -> (item d i == 0)%Q).
  { apply (be_system_constant_rhs m A M delta_t sigma D 0 d); try assumption.
    intros i Hi.
    transitivity (row_dot M x i - row_dot M x' i)%Q;
      [|rewrite (Hrows i Hi), (Hrows' i Hi); ring].
    unfold row_dot. rewrite Hc.
    transitivity
      (sumQ (fun j => get M i j * item x j + -1 * (get M i j * item x' j))
         (range (m * m)))%Q.
    - apply sumQ_ext. intros j Hj. apply in_range_iff in Hj.
      unfold d. rewrite item_map2 by (try congruence; lia). ring.
    - rewrite sumQ_plus, sumQ_scale. ring. }
  apply veq_of_items; [congruence|]. intros i Hi.
  specialize (Hd i ltac:(nia)). unfold d in Hd.
  rewrite item_map2 in Hd by (try congruence; lia). lra.
Qed.

Lemma solves_sum (m : Z) (A M : spmatrix) (delta_t sigma D : Q)
  (b x : ndarray) :
  2 <= m -> laplacian_discretization m = Ok A ->
  be_system A delta_t sigma D = Ok M -> solves M b x ->
  (vsum x == vsum b)%Q.
Proof.
  intros Hm EA EM Hsol.
  destruct (solves_rows m A M _ _ _ b x Hm EA EM Hsol) as (Hx & Hb & Hrows).
  rewrite (vsum_items b), (vsum_items x), Hx, Hb, Z2Nat.id by nia.
  transitivity (sumQ (row_dot M x) (range (m * m))).
  - transitivity
      (sumQ (fun i => item x i
                      + - (delta_t * sigma * D) * row_dot A x i)
         (range (m * m)))%Q.
    + rewrite sumQ_plus, sumQ_scale, (laplacian_rows_total m A x Hm EA). ring.
    + apply sumQ_ext. intros i Hi. apply in_range_iff in Hi.
      rewrite (be_system_row m A M _ _ _ x i Hm EA EM Hi).
      rewrite (laplacian_row_dot m A x i Hm EA Hi). ring.
  - apply sumQ_ext. intros i Hi. apply in_range_iff in Hi. now apply Hrows.
Qed.

(** X7: for m >= 2 and positive delta_t, sigma, D_1, D_2, whatever
    backward_euler_diffusion_step returns on the grid of
    laplacian_discretization(m) lies between the bounds of its input:
    bounds on U hold for the new U, bounds on V for the new V. The implicit
    step is stable for every step size. *)
Theorem implicit_diffusion_keeps_bounds (m : Z) (delta_t sigma D_1 D_2 : Q) :
  2 <= m -> (0 < delta_t)%Q -> (0 < sigma)%Q -> (0 < D_1)%Q -> (0 < D_2)%Q ->
  exists A, laplacian_discretization m = Ok A /\
    forall U V out lo hi lo' hi',
      backward_euler_diffusion_step U V A delta_t sigma D_1 D_2 out ->
      bounded lo hi U -> bounded lo' hi' V ->
      bounded lo hi (fst out) /\ bounded lo' hi' (snd out).
Proof.
  intros Hm Hdt Hs H1 H2. destruct (laplacian_returns m Hm) as [A EA].
  exists A. split; [exact EA|].
  intros U V out lo hi lo' hi' (M1 & M2 & E1 & S1 & E2 & S2) HU HV. split.
  - exact (solves_bounded m A M1 delta_t sigma D_1 lo hi U (fst out)
             Hm Hdt Hs H1 EA E1 S1 HU).
  - exact (solves_bounded m A M2 delta_t sigma D_2 lo' hi' V (snd out)
             Hm Hdt Hs H2 EA E2 S2 HV).
Qed.

Lemma implicit_diffusion_keeps_bounds_witness :
  exists A, laplacian_discretization 2 = Ok A /\
    forall U V out lo hi lo' hi',
      backward_euler_diffusion_step U V A 1 1 1 1 out ->
      bounded lo hi U -> bounded lo' hi' V ->
      bounded lo hi (fst out) /\ bounded lo' hi' (snd out).
Proof.
  apply (implicit_diffusion_keeps_bounds 2 1 1 1 1); [lia | reflexivity ..].
Defined.

(** X8: under the same conditions the result of
    backward_euler_diffusion_step is determined by its arguments: two
    results for the same input agree entry by entry. *)
Theorem implicit_diffusion_result_unique (m : Z) (delta_t sigma D_1 D_2 : Q) :
  2 <= m -> (0 < delta_t)%Q -> (0 < sigma)%Q -> (0 < D_1)%Q -> (0 < D_2)%Q ->
  exists A, laplacian_discretization m = Ok A /\
    forall U V out out',
      backward_euler_diffusion_step U V A delta_t sigma D_1 D_2 out ->
      backward_euler_diffusion_step U V A delta_t sigma D_1 D_2 out' ->
      veq (fst out) (fst out') /\ veq (snd out) (snd out').
Proof.
  intros Hm Hdt Hs H1 H2. destruct (laplacian_returns m Hm) as [A EA].
  exists A. split; [exact EA|].
  intros U V out out' (M1 & M2 & E1 & S1 & E2 & S2)
    (M1' & M2' & E1' & S1' & E2' & S2').
  rewrite E1 in E1'. injection E1' as <-.
  rewrite E2 in E2'. injection E2' as <-. split.
  - exact (solves_unique m A M1 delta_t sigma D_1 U (fst out) (fst out')
             Hm Hdt Hs H1 EA E1 S1 S1').
  - exact (solves_unique m A M2 delta_t sigma D_2 V (snd out) (snd out')
             Hm Hdt Hs H2 EA E2 S2 S2').
Qed.

Lemma implicit_diffusion_result_unique_witness :
  exists A, laplacian_discretization 2 = Ok A /\
    forall U V out out',
      backward_euler_diffusion_step U V A 1 1 1 1 out ->
      backward_euler_diffusion_step U V A 1 1 1 1 out' ->
      veq (fst out) (fst out') /\ veq (snd out) (snd out').
Proof.
  apply (implicit_diffusion_result_unique 2 1 1 1 1); [lia | reflexivity ..].
Defined.

(** X9: on the grid of laplacian_discretization(m), m >= 2, whatever
    backward_euler_diffusion_step returns has the same sum of U and the
    same sum of V as its input, for all delta_t, sigma, D_1 and D_2. *)
Theorem implicit_diffusion_conserves_sum (m : Z) (delta_t sigma D_1 D_2 : Q) :
  2 <= m ->
  exists A, laplacian_discretization m = Ok A /\
    forall U V out,
      backward_euler_diffusion_step U V A delta_t sigma D_1 D_2 out ->
      (vsum (fst out) == vsum U)%Q /\ (vsum (snd out) == vsum V)%Q.
Proof.
  intros Hm. destruct (laplacian_returns m Hm) as [A EA].
  exists A. split; [exact EA|].
  intros U V out (M1 & M2 & E1 & S1 & E2 & S2). split.
  - exact (solves_sum m A M1 delta_t sigma D_1 U (fst out) Hm EA E1 S1).
  - exact (solves_sum m A M2 delta_t sigma D_2 V (snd out) Hm EA E2 S2).
Qed.

Lemma implicit_diffusion_conserves_sum_witness :
  exists A, laplacian_discretization 2 = Ok A /\
    forall U V out,
      backward_euler_diffusion_step U V A 1 1 1 1 out ->
      (vsum (fst out) == vsum U)%Q /\ (vsum (snd out) == vsum V)%Q.
Proof. apply (implicit_diffusion_conserves_sum 2 1 1 1 1). lia. Defined.

(** ** The reaction terms *)

(** X10: for beta different from zero, g_reaction on floats returns the
    value of the polynomial the notebook's text gives for g:
    beta v + alpha tau_1 u v^2 + u (gamma + tau_2 v). *)
Theorem g_reaction_is_polynomial (U V sigma tau_1 tau_2 alpha beta gamma : Q) :
  ~ (beta == 0)%Q ->
  exists v : Q,
    g_reaction U V sigma tau_1 tau_2 alpha beta gamma = Ok v /\
    (v == g_polynomial U V tau_1 tau_2 alpha beta gamma)%Q.
Proof.
  intros Hb. unfold g_reaction, pydiv.
  destruct (Qeq_bool beta 0) eqn:E; [now apply Qeq_bool_iff in E|].
  eexists. split; [reflexivity|].
  cbn [scal offs Numeric_float]. unfold g_polynomial. field. exact Hb.
Qed.

Lemma g_reaction_is_polynomial_witness :
  exists v : Q,
    g_reaction (1 # 2) (1 # 3) (21 # 10000) (7 # 2) 0 (899 # 1000)
      (-91 # 100) (-899 # 1000) = Ok v /\
    (v == g_polynomial (1 # 2) (1 # 3) (7 # 2) 0 (899 # 1000)
            (-91 # 100) (-899 # 1000))%Q.
Proof.
  apply (g_reaction_is_polynomial (1 # 2) (1 # 3) (21 # 10000) (7 # 2) 0
           (899 # 1000) (-91 # 100) (-899 # 1000)).
  discriminate.
Defined.

(** X11: on two arrays of the same length f_reaction returns an array of
    that length whose entry i is f_reaction of the two entries i. *)
Theorem f_reaction_elementwise (U V : ndarray)
  (sigma tau_1 tau_2 alpha beta gamma : Q) :
  length U = length V ->
  exists F,
    f_reaction U V sigma tau_1 tau_2 alpha beta gamma = Ok F /\
    length F = length U /\
    forall i, 0 <= i < Z.of_nat (length U) ->
      f_reaction (item U i) (item V i) sigma tau_1 tau_2 alpha beta gamma
      = Ok (item F i).
Proof.
  intros HUV. unfold f_reaction at 1.
  cbn [mul add scal rsub sqr Numeric_ndarray].
  rewrite !broadcast2_same by (rewrite !length_map; congruence).
  cbn [bind].
  rewrite broadcast2_same
    by (rewrite !map2_length; rewrite ?length_map; congruence).
  eexists. split; [reflexivity|]. split.
  - rewrite map2_length; rewrite !map2_length; rewrite ?length_map; congruence.
  - intros i Hi.
    rewrite item_map2
      by (rewrite ?map2_length; rewrite ?length_map; try congruence; lia).
    rewrite !item_map2 by (rewrite ?length_map; try congruence; lia).
    rewrite !item_map by (rewrite ?length_map; lia).
    reflexivity.
Qed.

Lemma f_reaction_elementwise_witness :
  exists F,
    f_reaction [1; 2; 3]%Q [4; 5; 6]%Q 1 (7 # 2) 0 (899 # 1000) (-91 # 100)
      (-899 # 1000) = Ok F /\
    length F = length [1; 2; 3]%Q /\
    forall i, 0 <= i < Z.of_nat (length [1; 2; 3]%Q) ->
      f_reaction (item [1; 2; 3]%Q i) (item [4; 5; 6]%Q i) 1 (7 # 2) 0
        (899 # 1000) (-91 # 100) (-899 # 1000)
      = Ok (item F i).
Proof.
  apply (f_reaction_elementwise [1; 2; 3]%Q [4; 5; 6]%Q). reflexivity.
Defined.

(** X12: for beta different from zero, on two arrays of the same length
    g_reaction returns an array of that length whose entry i is g_reaction
    of the two entries i. *)
Theorem g_reaction_elementwise (U V : ndarray)
  (sigma tau_1 tau_2 alpha beta gamma : Q) :
  ~ (beta == 0)%Q -> length U = length V ->
  exists G,
    g_reaction U V sigma tau_1 tau_2 alpha beta gamma = Ok G /\
    length G = length U /\
    forall i, 0 <= i < Z.of_nat (length U) ->
      g_reaction (item U i) (item V i) sigma tau_1 tau_2 alpha beta gamma
      = Ok (item G i).
Proof.
  intros Hb HUV. unfold g_reaction, pydiv.
  destruct (Qeq_bool beta 0) eqn:E; [now apply Qeq_bool_iff in E|].
  cbn [bind mul add scal offs Numeric_ndarray Numeric_float].
  rewrite (broadcast2_same Qmult (map (Qmult (alpha * tau_1 / beta)) U) V)
    by (rewrite length_map; congruence).
  cbn [bind].
  rewrite !broadcast2_same
    by (rewrite ?length_map, ?map2_length; rewrite ?length_map; congruence).
  cbn [bind].
  rewrite broadcast2_same
    by (rewrite !map2_length; rewrite ?length_map, ?map2_length;
        rewrite ?length_map; congruence).
  eexists. split; [reflexivity|]. split.
  - rewrite map2_length; rewrite !map2_length; rewrite ?length_map, ?map2_length;
      rewrite ?length_map; congruence.
  - intros i Hi.
    rewrite item_map2
      by (rewrite ?map2_length; rewrite ?length_map, ?map2_length;
          rewrite ?length_map; try congruence; lia).
    rewrite !item_map2
      by (rewrite ?length_map, ?map2_length; rewrite ?length_map;
          try congruence; lia).
    rewrite !item_map
      by (rewrite ?map2_length; rewrite ?length_map; try congruence; lia).
    rewrite !item_map2 by (rewrite ?length_map; try congruence; lia).
    rewrite !item_map by lia.
    reflexivity.
Qed.

Lemma g_reaction_elementwise_witness :
  exists G,
    g_reaction [1; 2; 3]%Q [4; 5; 6]%Q 1 (7 # 2) 0 (899 # 1000) (-91 # 100)
      (-899 # 1000) = Ok G /\
    length G = length [1; 2; 3]%Q /\
    forall i, 0 <= i < Z.of_nat (length [1; 2; 3]%Q) ->
      g_reaction (item [1; 2; 3]%Q i) (item [4; 5; 6]%Q i) 1 (7 # 2) 0
        (899 # 1000) (-91 # 100) (-899 # 1000)
      = Ok (item G i).
Proof.
  apply (g_reaction_elementwise [1; 2; 3]%Q [4; 5; 6]%Q);
    [discriminate|reflexivity].
Defined.

(** X13: two arrays whose lengths differ, neither of length one, cannot be
    combined: f_reaction raises ValueError and g_reaction raises. *)
Theorem reaction_rejects_mismatched_shapes (U V : ndarray)
  (sigma tau_1 tau_2 alpha beta gamma : Q) :
  length U <> length V -> length U <> 1%nat -> length V <> 1%nat ->
  f_reaction U V sigma tau_1 tau_2 alpha beta gamma = Raise ValueError /\
  raises (g_reaction U V sigma tau_1 tau_2 alpha beta gamma).
Proof.
  intros Hne HU1 HV1.
  assert (Hbc : forall op (x y : ndarray),
            length x = length U -> length y = length V ->
            broadcast2 op x y = Raise ValueError).
  { intros op x y Hx Hy. unfold broadcast2. rewrite Hx, Hy.
    destruct (Nat.eqb_spec (length U) (length V)); [contradiction|].
    destruct (Nat.eqb_spec (length U) 1); [contradiction|].
    destruct (Nat.eqb_spec (length V) 1); [contradiction|]. reflexivity. }
  split.
  - unfold f_reaction. cbn [mul add scal rsub sqr Numeric_ndarray].
    rewrite Hbc by now rewrite !length_map. reflexivity.
  - unfold g_reaction. destruct (pydiv (alpha * tau_1) beta) as [q|e];
      [|now exists e].
    cbn [bind mul add scal offs Numeric_ndarray].
    rewrite Hbc by now rewrite ?length_map. now exists ValueError.
Qed.

Lemma reaction_rejects_mismatched_shapes_witness :
  f_reaction [1; 2; 3]%Q [4; 5]%Q 1 0 0 1 1 0 = Raise ValueError /\
  raises (g_reaction [1; 2; 3]%Q [4; 5]%Q 1 0 0 1 1 0).
Proof.
  apply (reaction_rejects_mismatched_shapes [1; 2; 3]%Q [4; 5]%Q);
    cbn [length]; lia.
Defined.

(** X14: with beta = 0 no step can be taken, whatever the state, the
    matrix and the other arguments are: forward_euler_step and
    forward_euler_reaction_step raise, and the loop body of imex_solver has
    no next state. *)
Theorem beta_zero_blocks_every_step (sigma' tau_1 tau_2 alpha gamma : Q)
  (U V : ndarray) (delta_t : Q) (A : spmatrix) (sigma : Q) (f : reaction)
  (D1 D2 : Q) (s s' : ndarray * ndarray) :
  raises (forward_euler_step U V delta_t A sigma f
            (g_alias sigma' tau_1 tau_2 alpha 0 gamma) D1 D2) /\
  raises (forward_euler_reaction_step U V delta_t f
            (g_alias sigma' tau_1 tau_2 alpha 0 gamma)) /\
  ~ imex_solver_iteration A delta_t sigma f
      (g_alias sigma' tau_1 tau_2 alpha 0 gamma) D1 D2 s s'.
Proof.
  assert (Hg : forall X Y : ndarray,
            g_alias sigma' tau_1 tau_2 alpha 0 gamma X Y
            = Raise ZeroDivisionError) by reflexivity.
  assert (Hstep : forall X Y D D',
            raises (forward_euler_step X Y delta_t A sigma f
                      (g_alias sigma' tau_1 tau_2 alpha 0 gamma) D D')).
  { intros X Y D D'. unfold forward_euler_step.
    destruct (euler_update X delta_t A sigma D (f X Y)) as [U1|e];
      [|now exists e].
    cbn [bind]. rewrite Hg. unfold euler_update.
    destruct (matvec (sp_scale (sigma * D') A) Y) as [AV|e]; [|now exists e].
    now exists ZeroDivisionError. }
  split; [apply Hstep|]. split.
  - unfold forward_euler_reaction_step.
    destruct (f U V) as [F|e]; [|now exists e]. cbn [bind].
    destruct (add U (scal delta_t F)) as [U1|e]; [|now exists e].
    cbn [bind]. rewrite Hg. now exists ZeroDivisionError.
  - intros (s1 & _ & E).
    destruct (Hstep (fst s1) (snd s1) D1_default D2_default) as [e He].
    rewrite He in E. discriminate E.
Qed.

(** ** Steps in which the diffusion term vanishes *)

(** X15: a state whose length is not the number of columns of the matrix
    is rejected: forward_euler_step raises ValueError before the reaction
    terms are looked at. *)
Theorem forward_euler_step_rejects_wrong_length (U V : ndarray) (delta_t : Q)
  (A : spmatrix) (sigma : Q) (f g : reaction) (D1 D2 : Q) :
  Z.of_nat (length U) <> ncols A ->
  forward_euler_step U V delta_t A sigma f g D1 D2 = Raise ValueError.
Proof.
  intros Hne. unfold forward_euler_step, euler_update, matvec.
  cbn [ncols sp_scale].
  destruct (Z.eqb_spec (Z.of_nat (length U)) (ncols A)); [contradiction|].
  reflexivity.
Qed.

Lemma forward_euler_step_rejects_wrong_length_witness :
  forward_euler_step [1; 2; 3]%Q [1; 2; 3]%Q 1 (sparse_eye 4) 1
    (f_alias 1 0 0 1 1 0) (g_alias 1 0 0 1 0 0) (1 # 2) 1 = Raise ValueError.
Proof.
  apply (forward_euler_step_rejects_wrong_length [1; 2; 3]%Q [1; 2; 3]%Q 1
           (sparse_eye 4)).
  cbn. lia.
Defined.

Lemma euler_update_without_diffusion (A : spmatrix) (U F : ndarray)
  (delta_t sigma D : Q) :
  nrows A = ncols A -> Z.of_nat (length U) = ncols A ->
  length F = length U ->
  (forall i, 0 <= i < nrows A -> (sigma * D * row_dot A U i == 0)%Q) ->
  exists U', euler_update U delta_t A sigma D (Ok F) = Ok U' /\
    length U' = length U /\
    forall i, 0 <= i < Z.of_nat (length U) ->
      (item U' i == item U i + delta_t * item F i)%Q.
Proof.
  intros Hsq HU HF Hzero. unfold euler_update.
  rewrite matvec_ok by (cbn [ncols sp_scale]; exact HU).
  cbn [nrows sp_scale bind add scal Numeric_ndarray].
  set (AU := map (row_dot (sp_scale (sigma * D) A) U) (range (nrows A))).
  assert (HAU : length AU = length U)
    by (unfold AU; rewrite length_map, range_length; lia).
  rewrite (broadcast2_same Qplus AU F) by congruence. cbn [bind].
  assert (HR : length (map (Qmult delta_t) (map2 Qplus AU F)) = length U)
    by (rewrite length_map, map2_length; congruence).
  rewrite broadcast2_same by congruence.
  eexists. split; [reflexivity|]. split; [rewrite map2_length; congruence|].
  intros i Hi.
  rewrite item_map2, item_map, item_map2
    by (try congruence; try lia; rewrite map2_length; try congruence; lia).
  unfold AU. rewrite item_map_range, row_dot_scale by lia.
  rewrite (Hzero i) by lia. ring.
Qed.

Lemma reaction_step_entries (U V F G : ndarray) (delta_t : Q) (f g : reaction) :
  f U V = Ok F -> length F = length U ->
  g U V = Ok G -> length G = length V ->
  forward_euler_reaction_step U V delta_t f g
  = Ok (map2 Qplus U (map (Qmult delta_t) F),
        map2 Qplus V (map (Qmult delta_t) G)).
Proof.
  intros EF HF EG HG. unfold forward_euler_reaction_step.
  rewrite EF, EG. cbn [bind add scal Numeric_ndarray].
  rewrite !broadcast2_same by (rewrite length_map; congruence).
  reflexivity.
Qed.

Lemma step_without_diffusion (A : spmatrix) (U V : ndarray) (delta_t sigma : Q)
  (f g : reaction) (D1 D2 : Q) (s : ndarray * ndarray) :
  nrows A = ncols A -> Z.of_nat (length U) = ncols A -> length V = length U ->
  shape_preserving f -> shape_preserving g ->
  (forall i, 0 <= i < nrows A -> (sigma * D1 * row_dot A U i == 0)%Q) ->
  (forall i, 0 <= i < nrows A -> (sigma * D2 * row_dot A V i == 0)%Q) ->
  forward_euler_reaction_step U V delta_t f g = Ok s ->
  exists s', forward_euler_step U V delta_t A sigma f g D1 D2 = Ok s' /\
    veq (fst s') (fst s) /\ veq (snd s') (snd s).
Proof.
  intros Hsq HU HV Hf Hg HzU HzV Hs.
  destruct (f U V) as [F|e] eqn:EF;
    [|unfold forward_euler_reaction_step in Hs; rewrite EF in Hs;
      discriminate Hs].
  pose proof (Hf U V F (eq_sym HV) EF) as HF.
  destruct (g U V) as [G|e] eqn:EG.
  2:{ unfold forward_euler_reaction_step in Hs. rewrite EF, EG in Hs.
      cbn [bind] in Hs.
      destruct (add U (scal delta_t F)); discriminate Hs. }
  pose proof (Hg U V G (eq_sym HV) EG) as HG.
  rewrite (reaction_step_entries U V F G delta_t f g EF HF EG
             ltac:(congruence)) in Hs.
  injection Hs as <-.
  destruct (euler_update_without_diffusion A U F delta_t sigma D1
              Hsq HU HF HzU) as (U' & EU & LU & IU).
  destruct (euler_update_without_diffusion A V G delta_t sigma D2
              Hsq ltac:(lia) ltac:(congruence) HzV) as (V' & EV & LV & IV).
  exists (U', V'). unfold forward_euler_step. rewrite EF, EG, EU, EV.
  split; [reflexivity|]. cbn [fst snd]. split.
  - apply veq_of_items;
      [rewrite map2_length; rewrite ?length_map; congruence|].
    intros i Hi. rewrite LU in Hi.
    rewrite item_map2, item_map by (rewrite ?length_map; try congruence; lia).
    now apply IU.
  - apply veq_of_items;
      [rewrite map2_length; rewrite ?length_map; congruence|].
    intros i Hi. rewrite LV in Hi.
    rewrite item_map2, item_map by (rewrite ?length_map; try congruence; lia).
    now apply IV.
Qed.

(** X16: with sigma = 0, on a square matrix that fits the state and with
    shape-preserving reaction terms, forward_euler_step returns what
    forward_euler_reaction_step returns, entry by entry. *)
Theorem zero_sigma_step_is_reaction_step (A : spmatrix) (U V : ndarray)
  (delta_t : Q) (f g : reaction) (D1 D2 : Q) (s : ndarray * ndarray) :
  nrows A = ncols A -> Z.of_nat (length U) = ncols A -> length V = length U ->
  shape_preserving f -> shape_preserving g ->
  forward_euler_reaction_step U V delta_t f g = Ok s ->
  exists s', forward_euler_step U V delta_t A 0 f g D1 D2 = Ok s' /\
    veq (fst s') (fst s) /\ veq (snd s') (snd s).
Proof.
  intros Hsq HU HV Hf Hg Hs.
  apply (step_without_diffusion A U V delta_t 0 f g D1 D2 s);
    try assumption; intros; ring.
Qed.

Lemma zero_sigma_step_is_reaction_step_witness :
  exists s,
    forward_euler_reaction_step [1; 2; 3]%Q [4; 5; 6]%Q (1 # 10)
      (f_alias 0 (7 # 2) 0 (899 # 1000) (-91 # 100) (-899 # 1000))
      (g_alias 0 (7 # 2) 0 (899 # 1000) (-91 # 100) (-899 # 1000)) = Ok s /\
    exists s',
      forward_euler_step [1; 2; 3]%Q [4; 5; 6]%Q (1 # 10)
        (sp_scale 5 (sparse_eye 3)) 0
        (f_alias 0 (7 # 2) 0 (899 # 1000) (-91 # 100) (-899 # 1000))
        (g_alias 0 (7 # 2) 0 (899 # 1000) (-91 # 100) (-899 # 1000))
        (1 # 2) 1 = Ok s' /\
      veq (fst s') (fst s) /\ veq (snd s') (snd s).
Proof.
  eexists. split; [vm_compute; reflexivity|].
  apply (zero_sigma_step_is_reaction_step (sp_scale 5 (sparse_eye 3))
           [1; 2; 3]%Q [4; 5; 6]%Q (1 # 10)
           (f_alias 0 (7 # 2) 0 (899 # 1000) (-91 # 100) (-899 # 1000))
           (g_alias 0 (7 # 2) 0 (899 # 1000) (-91 # 100) (-899 # 1000))
           (1 # 2) 1);
    [reflexivity | reflexivity | reflexivity | apply f_alias_shape
     | apply g_alias_shape | vm_compute; reflexivity].
Defined.

(** X17: on the grid of laplacian_discretization(m), m >= 2, a spatially
    constant state (U = c everywhere, V = d everywhere) feels no diffusion:
    with shape-preserving reaction terms forward_euler_step returns what
    forward_euler_reaction_step returns, entry by entry. *)
Theorem homogeneous_step_is_reaction_step (m : Z) (c d delta_t sigma : Q)
  (f g : reaction) (D1 D2 : Q) (s : ndarray * ndarray) :
  2 <= m -> shape_preserving f -> shape_preserving g ->
  forward_euler_reaction_step (constant (m * m) c) (constant (m * m) d)
    delta_t f g = Ok s ->
  exists A s',
    laplacian_discretization m = Ok A /\
    forward_euler_step (constant (m * m) c) (constant (m * m) d)
      delta_t A sigma f g D1 D2 = Ok s' /\
    veq (fst s') (fst s) /\ veq (snd s') (snd s).
Proof.
  intros Hm Hf Hg Hs. destruct (laplacian_returns m Hm) as [A EA].
  destruct (laplacian_shape m A Hm EA) as [Hr Hc].
  destruct (step_without_diffusion A (constant (m * m) c) (constant (m * m) d)
              delta_t sigma f g D1 D2 s) as (s' & Es' & HU & HV);
    try assumption.
  - congruence.
  - rewrite constant_length. nia.
  - now rewrite !constant_length.
  - intros i Hi. rewrite (laplacian_row_dot_constant m A c i Hm EA) by lia.
    ring.
  - intros i Hi. rewrite (laplacian_row_dot_constant m A d i Hm EA) by lia.
    ring.
  - exists A, s'. repeat split; assumption.
Qed.

Lemma homogeneous_step_is_reaction_step_witness :
  exists s,
    forward_euler_reaction_step (constant (2 * 2) (1 # 2))
      (constant (2 * 2) (1 # 3)) (1 # 10)
      (f_alias 1 (7 # 2) 0 (899 # 1000) (-91 # 100) (-899 # 1000))
      (g_alias 1 (7 # 2) 0 (899 # 1000) (-91 # 100) (-899 # 1000)) = Ok s /\
    exists A s',
      laplacian_discretization 2 = Ok A /\
      forward_euler_step (constant (2 * 2) (1 # 2)) (constant (2 * 2) (1 # 3))
        (1 # 10) A 1
        (f_alias 1 (7 # 2) 0 (899 # 1000) (-91 # 100) (-899 # 1000))
        (g_alias 1 (7 # 2) 0 (899 # 1000) (-91 # 100) (-899 # 1000))
        (1 # 2) 1 = Ok s' /\
      veq (fst s') (fst s) /\ veq (snd s') (snd s).
Proof.
  eexists. split; [vm_compute; reflexivity|].
  apply (homogeneous_step_is_reaction_step 2 (1 # 2) (1 # 3) (1 # 10) 1
           (f_alias 1 (7 # 2) 0 (899 # 1000) (-91 # 100) (-899 # 1000))
           (g_alias 1 (7 # 2) 0 (899 # 1000) (-91 # 100) (-899 # 1000))
           (1 # 2) 1);
    [lia | apply f_alias_shape | apply g_alias_shape
     | vm_compute; reflexivity].
Defined.

(** ** The loop body of the IMEX solver on constant states *)

Lemma map_veq (f f' : Q -> Q) (x x' : ndarray) :
  (forall a a', (a == a')%Q -> (f a == f' a')%Q) ->
  veq x x' -> veq (map f x) (map f' x').
Proof.
  intros Hf H. unfold veq in *.
  induction H; cbn [map]; constructor; auto.
Qed.

Lemma map2_veq (op : Q -> Q -> Q) (x x' y y' : ndarray) :
  Proper (Qeq ==> Qeq ==> Qeq) op ->
  veq x x' -> veq y y' -> veq (map2 op x y) (map2 op x' y').
Proof.
  intros Hop Hx. unfold veq in *. revert y y'.
  induction Hx as [|a a' x x' Ha Hx IH]; intros y y' Hy.
  - destruct y, y'; constructor.
  - destruct Hy as [|b b' y y' Hb Hy]; cbn [map2]; constructor.
    + now apply Hop.
    + now apply IH.
Qed.

Lemma hd_veq (x x' : ndarray) : veq x x' -> (hd 0 x == hd 0 x')%Q.
Proof. intros H. destruct H; cbn; [reflexivity|assumption]. Qed.

Lemma broadcast2_veq (op : Q -> Q -> Q) (x x' y y' r : ndarray) :
  Proper (Qeq ==> Qeq ==> Qeq) op ->
  veq x x' -> veq y y' -> broadcast2 op x y = Ok r ->
  exists r', broadcast2 op x' y' = Ok r' /\ veq r r'.
Proof.
  intros Hop Hx Hy. unfold broadcast2.
  rewrite <- (veq_length _ _ Hx), <- (veq_length _ _ Hy).
  destruct (length x =? length y)%nat.
  - intros E. injection E as <-. eexists. split; [reflexivity|].
    now apply map2_veq.
  - destruct (length x =? 1)%nat.
    + intros E. injection E as <-. eexists. split; [reflexivity|].
      apply map_veq; [|assumption]. intros a a' Ha.
      apply Hop; [now apply hd_veq|assumption].
    + destruct (length y =? 1)%nat; [|discriminate].
      intros E. injection E as <-. eexists. split; [reflexivity|].
      apply map_veq; [|assumption]. intros a a' Ha.
      apply Hop; [assumption|now apply hd_veq].
Qed.

Lemma scal_veq (k : Q) (x x' : ndarray) :
  veq x x' -> veq (map (Qmult k) x) (map (Qmult k) x').
Proof. apply map_veq. intros a a' Ha. now rewrite Ha. Qed.

Lemma f_alias_veq (sigma tau_1 tau_2 alpha beta gamma : Q) :
  veq_compatible (f_alias sigma tau_1 tau_2 alpha beta gamma).
Proof.
  intros U U' V V' F HU HV. unfold f_alias, f_reaction.
  cbn [mul add scal rsub sqr Numeric_ndarray].
  assert (H1 : veq (map (Qmult alpha) U) (map (Qmult alpha) U'))
    by now apply scal_veq.
  assert (H2 : veq (map (Qminus 1) (map (Qmult tau_1)
                                      (map (fun x => (x * x)%Q) V)))
                   (map (Qminus 1) (map (Qmult tau_1)
                                      (map (fun x => (x * x)%Q) V')))).
  { apply map_veq; [intros a a' Ha; now rewrite Ha|].
    apply scal_veq. apply map_veq; [intros a a' Ha; now rewrite Ha|].
    assumption. }
  assert (H3 : veq (map (Qminus 1) (map (Qmult tau_2) U))
                   (map (Qminus 1) (map (Qmult tau_2) U'))).
  { apply map_veq; [intros a a' Ha; now rewrite Ha|]. now apply scal_veq. }
  destruct (broadcast2 Qmult (map (Qmult alpha) U) _) as [a|e] eqn:Ea;
    [|discriminate].
  destruct (broadcast2_veq Qmult _ _ _ _ a _ H1 H2 Ea) as (a' & Ea' & Ha).
  rewrite Ea'. cbn [bind].
  destruct (broadcast2 Qmult V _) as [b|e] eqn:Eb; [|discriminate].
  destruct (broadcast2_veq Qmult _ _ _ _ b _ HV H3 Eb) as (b' & Eb' & Hb).
  rewrite Eb'. cbn [bind]. intros EF.
  exact (broadcast2_veq Qplus _ _ _ _ F _ Ha Hb EF).
Qed.

Lemma g_alias_veq (sigma tau_1 tau_2 alpha beta gamma : Q) :
  veq_compatible (g_alias sigma tau_1 tau_2 alpha beta gamma).
Proof.
  intros U U' V V' G HU HV. unfold g_alias, g_reaction.
  destruct (pydiv (alpha * tau_1) beta) as [q|e]; [|discriminate].
  cbn [bind mul add scal offs Numeric_ndarray].
  assert (H1 : veq (map (Qmult q) U) (map (Qmult q) U')) by now apply scal_veq.
  destruct (broadcast2 Qmult (map (Qmult q) U) V) as [quv|e] eqn:E1;
    [|discriminate].
  destruct (broadcast2_veq Qmult _ _ _ _ quv _ H1 HV E1) as (quv' & E1' & Hq).
  rewrite E1'. cbn [bind].
  assert (H2 : veq (map (Qmult beta) V) (map (Qmult beta) V'))
    by now apply scal_veq.
  assert (H3 : veq (map (Qplus 1) quv) (map (Qplus 1) quv'))
    by (apply map_veq; [intros a a' Ha; now rewrite Ha|assumption]).
  destruct (broadcast2 Qmult (map (Qmult beta) V) _) as [a|e] eqn:Ea;
    [|discriminate].
  destruct (broadcast2_veq Qmult _ _ _ _ a _ H2 H3 Ea) as (a' & Ea' & Ha).
  rewrite Ea'. cbn [bind].
  assert (H4 : veq (map (Qplus gamma) (map (Qmult tau_2) V))
                   (map (Qplus gamma) (map (Qmult tau_2) V'))).
  { apply map_veq; [intros x x' Hx; now rewrite Hx|]. now apply scal_veq. }
  destruct (broadcast2 Qmult U _) as [b|e] eqn:Eb; [|discriminate].
  destruct (broadcast2_veq Qmult _ _ _ _ b _ HU H4 Eb) as (b' & Eb' & Hb).
  rewrite Eb'. cbn [bind]. intros EG.
  exact (broadcast2_veq Qplus _ _ _ _ G _ Ha Hb EG).
Qed.

Lemma row_dot_veq (A : spmatrix) (x x' : ndarray) (i : Z) :
  veq x x' -> (row_dot A x i == row_dot A x' i)%Q.
Proof.
  intros H. unfold row_dot. apply sumQ_ext. intros j _.
  now rewrite (veq_item x x' j H).
Qed.

Lemma imex_iteration_on_constants (m : Z) (A : spmatrix)
  (delta_t sigma D_1 D_2 c d : Q) (f g : reaction) (s' : ndarray * ndarray) :
  2 <= m -> (0 < delta_t)%Q -> (0 < sigma)%Q -> (0 < D_1)%Q -> (0 < D_2)%Q ->
  shape_preserving f -> shape_preserving g ->
  veq_compatible f -> veq_compatible g ->
  laplacian_discretization m = Ok A ->
  imex_solver_iteration A delta_t sigma f g D_1 D_2
    (constant (m * m) c, constant (m * m) d) s' ->
  exists s,
    forward_euler_reaction_step (constant (m * m) c) (constant (m * m) d)
      delta_t f g = Ok s /\
    veq (fst s') (fst s) /\ veq (snd s') (snd s).
Proof.
  intros Hm Hdt Hs H1 H2 Hf Hg Cf Cg EA ([Us Vs] & HBE & Hstep).
  destruct (laplacian_shape m A Hm EA) as [Hr Hc].
  destruct HBE as (M1 & M2 & E1 & S1 & E2 & S2). cbn [fst snd] in *.
  pose proof (be_system_solution_constant m A M1 delta_t sigma D_1 c Us
                Hm Hdt Hs H1 EA E1 S1) as HUs.
  pose proof (be_system_solution_constant m A M2 delta_t sigma D_2 d Vs
                Hm Hdt Hs H2 EA E2 S2) as HVs.
  pose proof (veq_length _ _ HUs) as LUs.
  pose proof (veq_length _ _ HVs) as LVs.
  rewrite constant_length in LUs, LVs.
  unfold forward_euler_step in Hstep.
  destruct (f Us Vs) as [F|e] eqn:EF.
  2:{ unfold euler_update in Hstep.
      destruct (matvec (sp_scale (sigma * D1_default) A) Us); discriminate. }
  pose proof (Hf Us Vs F ltac:(congruence) EF) as HF.
  destruct (euler_update_without_diffusion A Us F delta_t sigma D1_default)
    as (U' & EU & LU & IU); try congruence; try lia.
  { intros i Hi. rewrite (row_dot_veq A Us _ i HUs).
    rewrite (laplacian_row_dot_constant m A c i Hm EA) by lia. ring. }
  rewrite EU in Hstep. cbn [bind] in Hstep.
  destruct (g Us Vs) as [G|e] eqn:EG.
  2:{ unfold euler_update in Hstep.
      destruct (matvec (sp_scale (sigma * D2_default) A) Vs); discriminate. }
  pose proof (Hg Us Vs G ltac:(congruence) EG) as HG.
  destruct (euler_update_without_diffusion A Vs G delta_t sigma D2_default)
    as (V' & EV & LV & IV); try congruence; try lia.
  { intros i Hi. rewrite (row_dot_veq A Vs _ i HVs).
    rewrite (laplacian_row_dot_constant m A d i Hm EA) by lia. ring. }
  rewrite EV in Hstep. cbn [bind] in Hstep. injection Hstep as <-.
  destruct (Cf Us _ Vs _ F HUs HVs EF) as (F' & EF' & HFF).
  destruct (Cg Us _ Vs _ G HUs HVs EG) as (G' & EG' & HGG).
  pose proof (veq_length _ _ HFF) as LF. pose proof (veq_length _ _ HGG) as LG.
  eexists. split.
  - apply (reaction_step_entries _ _ F' G' delta_t f g EF');
      [rewrite constant_length; congruence | exact EG'
       | rewrite constant_length; congruence].
  - cbn [fst snd]. split.
    + apply veq_of_items.
      * rewrite map2_length; rewrite ?length_map, ?constant_length; congruence.
      * intros i Hi. rewrite LU in Hi.
        rewrite item_map2, item_map
          by (rewrite ?length_map, ?constant_length; try congruence; lia).
        rewrite (IU i Hi), (veq_item _ _ i HUs), (veq_item _ _ i HFF).
        reflexivity.
    + apply veq_of_items.
      * rewrite map2_length; rewrite ?length_map, ?constant_length; congruence.
      * intros i Hi. rewrite LV in Hi.
        rewrite item_map2, item_map
          by (rewrite ?length_map, ?constant_length; try congruence; lia).
        rewrite (IV i Hi), (veq_item _ _ i HVs), (veq_item _ _ i HGG).
        reflexivity.
Qed.

(** X18: on the grid of laplacian_discretization(m), m >= 2, with positive
    delta_t, sigma, D_1, D_2 and reaction terms that preserve shapes and
    respect equality of entries, one pass of the loop body of imex_solver
    from a spatially constant state ends in the state
    forward_euler_reaction_step returns from it: there the implicit solve
    changes nothing and the explicit diffusion term is zero. *)
Theorem imex_on_constant_state_is_reaction_step (m : Z)
  (delta_t sigma D_1 D_2 : Q) (f g : reaction) :
  2 <= m -> (0 < delta_t)%Q -> (0 < sigma)%Q -> (0 < D_1)%Q -> (0 < D_2)%Q ->
  shape_preserving f -> shape_preserving g ->
  veq_compatible f -> veq_compatible g ->
  exists A, laplacian_discretization m = Ok A /\
    forall c d s',
      imex_solver_iteration A delta_t sigma f g D_1 D_2
        (constant (m * m) c, constant (m * m) d) s' ->
      exists s,
        forward_euler_reaction_step (constant (m * m) c) (constant (m * m) d)
          delta_t f g = Ok s /\
        veq (fst s') (fst s) /\ veq (snd s') (snd s).
Proof.
  intros Hm Hdt Hs H1 H2 Hf Hg Cf Cg.
  destruct (laplacian_returns m Hm) as [A EA]. exists A.
  split; [exact EA|]. intros c d s' Hit.
  exact (imex_iteration_on_constants m A delta_t sigma D_1 D_2 c d f g s'
           Hm Hdt Hs H1 H2 Hf Hg Cf Cg EA Hit).
Qed.

Lemma imex_on_constant_state_is_reaction_step_witness :
  exists A, laplacian_discretization 2 = Ok A /\
    forall c d s',
      imex_solver_iteration A (1 # 10) 1
        (f_alias 1 (7 # 2) 0 (899 # 1000) (-91 # 100) (-899 # 1000))
        (g_alias 1 (7 # 2) 0 (899 # 1000) (-91 # 100) (-899 # 1000))
        (1 # 2) 1 (constant (2 * 2) c, constant (2 * 2) d) s' ->
      exists s,
        forward_euler_reaction_step (constant (2 * 2) c) (constant (2 * 2) d)
          (1 # 10)
          (f_alias 1 (7 # 2) 0 (899 # 1000) (-91 # 100) (-899 # 1000))
          (g_alias 1 (7 # 2) 0 (899 # 1000) (-91 # 100) (-899 # 1000)) = Ok s /\
        veq (fst s') (fst s) /\ veq (snd s') (snd s).
Proof.
  apply (imex_on_constant_state_is_reaction_step 2 (1 # 10) 1 (1 # 2) 1);
    [lia | reflexivity | reflexivity | reflexivity | reflexivity
     | apply f_alias_shape | apply g_alias_shape
     | apply f_alias_veq | apply g_alias_veq].
Defined.

(** ** The explicit solver's loop without reaction *)

Lemma pure_diffusion_iterate_bounded (m : Z) (A : spmatrix)
  (delta_t sigma D1 D2 lo hi lo' hi' : Q) (n : nat) :
  2 <= m -> laplacian_discretization m = Ok A ->
  (0 <= delta_t * sigma * D1)%Q ->
  (4 * (delta_t * sigma * D1) <= delta_x2 m)%Q ->
  (0 <= delta_t * sigma * D2)%Q ->
  (4 * (delta_t * sigma * D2) <= delta_x2 m)%Q ->
  forall U V,
    length U = Z.to_nat (m * m) -> length V = Z.to_nat (m * m) ->
    bounded lo hi U -> bounded lo' hi' V ->
    exists U' V',
      forward_euler_iterate n U V delta_t A sigma zero_reaction zero_reaction
        D1 D2 = Ok (U', V') /\
      bounded lo hi U' /\ bounded lo' hi' V'.
Proof.
  intros Hm EA H1 H1' H2 H2'. induction n as [|n IH]; intros U V HU HV HbU HbV.
  - exists U, V. repeat split; assumption.
  - cbn [forward_euler_iterate]. unfold forward_euler_step.
    destruct (diffusion_update_bounded m A U U V delta_t sigma D1 lo hi
                Hm EA HU HU H1 H1' HbU) as (U1 & EU & LU & BU).
    destruct (diffusion_update_bounded m A V U V delta_t sigma D2 lo' hi'
                Hm EA HV HU H2 H2' HbV) as (V1 & EV & LV & BV).
    rewrite EU, EV. cbn [bind fst snd]. exact (IH U1 V1 LU LV BU BV).
Qed.

(** X19: with no reaction and with 0 <= delta_t sigma D <= dx^2 / 4 for
    D = D1 and D = D2, any number of forward_euler_step calls in a row on
    the grid of laplacian_discretization(m), m >= 2, returns, and keeps
    every entry of U and of V between the bounds of the initial fields. *)
Theorem explicit_diffusion_loop_keeps_bounds (m : Z) (U V : ndarray)
  (delta_t sigma D1 D2 lo hi lo' hi' : Q) (n : nat) :
  2 <= m -> length U = Z.to_nat (m * m) -> length V = Z.to_nat (m * m) ->
  (0 <= delta_t * sigma * D1)%Q ->
  (4 * (delta_t * sigma * D1) <= delta_x2 m)%Q ->
  (0 <= delta_t * sigma * D2)%Q ->
  (4 * (delta_t * sigma * D2) <= delta_x2 m)%Q ->
  bounded lo hi U -> bounded lo' hi' V ->
  exists A U' V',
    laplacian_discretization m = Ok A /\
    forward_euler_iterate n U V delta_t A sigma zero_reaction zero_reaction
      D1 D2 = Ok (U', V') /\
    bounded lo hi U' /\ bounded lo' hi' V'.
Proof.
  intros Hm HU HV H1 H1' H2 H2' HbU HbV.
  destruct (laplacian_returns m Hm) as [A EA].
  destruct (pure_diffusion_iterate_bounded m A delta_t sigma D1 D2
              lo hi lo' hi' n Hm EA H1 H1' H2 H2' U V HU HV HbU HbV)
    as (U' & V' & E & BU & BV).
  exists A, U', V'. repeat split; assumption.
Qed.

Lemma explicit_diffusion_loop_keeps_bounds_witness :
  exists A U' V',
    laplacian_discretization 2 = Ok A /\
    forward_euler_iterate 5 [0; 1; 2; 3]%Q [1; 1; 0; 0]%Q (1 # 10) A 1
      zero_reaction zero_reaction (1 # 2) 1 = Ok (U', V') /\
    bounded 0 3 U' /\ bounded 0 1 V'.
Proof.
  apply (explicit_diffusion_loop_keeps_bounds 2 [0; 1; 2; 3]%Q [1; 1; 0; 0]%Q
           (1 # 10) 1 (1 # 2) 1 0 3 0 1 5);
    try reflexivity; try lia; try (vm_compute; discriminate);
    unfold bounded; repeat constructor; vm_compute; discriminate.
Defined.

(** X20: for every m >= 2, every delta_t, sigma, D1, D2 and every number
    of steps, iterating forward_euler_step with no reaction on fields of
    length m^2 returns and conserves the sum of U and the sum of V. *)
Theorem explicit_diffusion_loop_conserves_sums (m : Z) (U V : ndarray)
  (delta_t sigma D1 D2 : Q) (n : nat) :
  2 <= m -> length U = Z.to_nat (m * m) -> length V = Z.to_nat (m * m) ->
  exists A U' V',
    laplacian_discretization m = Ok A /\
    forward_euler_iterate n U V delta_t A sigma zero_reaction zero_reaction
      D1 D2 = Ok (U', V') /\
    (vsum U' == vsum U)%Q /\ (vsum V' == vsum V)%Q.
Proof.
  intros Hm HU HV. destruct (laplacian_returns m Hm) as [A EA].
  destruct (pure_diffusion_iterate m A delta_t sigma D1 D2 n Hm EA U V HU HV)
    as (U' & V' & E & SU & SV).
  exists A, U', V'. repeat split; assumption.
Qed.

Lemma explicit_diffusion_loop_conserves_sums_witness :
  exists A U' V',
    laplacian_discretization 3 = Ok A /\
    forward_euler_iterate 4 (map inject_Z (range 9)) (constant 9 1) 7 A 1
      zero_reaction zero_reaction (1 # 2) 1 = Ok (U', V') /\
    (vsum U' == vsum (map inject_Z (range 9)))%Q /\
    (vsum V' == vsum (constant 9 1))%Q.
Proof.
  apply (explicit_diffusion_loop_conserves_sums 3 (map inject_Z (range 9))
           (constant 9 1) 7 1 (1 # 2) 1 4); [lia | reflexivity ..].
Defined.

(** X21: for every grid size m >= 9 (the solver uses 150) and every
    sigma > 0, the step size of forward_euler_coupled_solver,
    delta_t = (2/m)^2 / (5 sigma), is positive and satisfies the bound
    delta_t sigma D <= dx^2 / 4 of X6 and X19 for both default diffusion
    coefficients D1 = 0.5 and D2 = 1.0, with dx = 2/(m+1) as the matrix
    uses it. *)
Theorem explicit_solver_step_is_stable (m : Z) (sigma : Q) :
  9 <= m -> (0 < sigma)%Q ->
  exists delta_t,
    explicit_solver_delta_t m sigma = Ok delta_t /\
    (0 < delta_t)%Q /\
    (4 * (delta_t * sigma * D1_default) <= delta_x2 m)%Q /\
    (4 * (delta_t * sigma * D2_default) <= delta_x2 m)%Q.
Proof.
  intros Hm Hs. unfold explicit_solver_delta_t, pydiv.
  assert (Hm0 : (0 < inject_Z m)%Q) by (unfold Qlt; simpl; lia).
  assert (Hm1 : (0 < inject_Z (m + 1))%Q) by (unfold Qlt; simpl; lia).
  destruct (Qeq_bool (inject_Z m) 0) eqn:E0.
  { apply Qeq_bool_iff in E0. lra. }
  cbn [bind].
  destruct (Qeq_bool (5 * sigma) 0) eqn:E1.
  { apply Qeq_bool_iff in E1. lra. }
  eexists. split; [reflexivity|].
  assert (Hq : (4 * (inject_Z (m + 1) * inject_Z (m + 1))
                <= 5 * (inject_Z m * inject_Z m))%Q).
  { change 4%Q with (inject_Z 4). change 5%Q with (inject_Z 5).
    rewrite <- !inject_Z_mult, <- Zle_Qle. nia. }
  assert (Hmm : (0 < inject_Z m * inject_Z m)%Q)
    by (apply Qmult_lt_0_compat; assumption).
  assert (Hm11 : (0 < inject_Z (m + 1) * inject_Z (m + 1))%Q)
    by (apply Qmult_lt_0_compat; assumption).
  assert (Edt : ((2 / inject_Z m) ^ 2 / (5 * sigma) * sigma
                 == 4 / (5 * (inject_Z m * inject_Z m)))%Q)
    by (simpl; field; split; lra).
  assert (Edx : (delta_x2 m == 4 / (inject_Z (m + 1) * inject_Z (m + 1)))%Q)
    by (unfold delta_x2; simpl; field; lra).
  assert (Hkey : (4 * (4 / (5 * (inject_Z m * inject_Z m)))
                  <= 4 / (inject_Z (m + 1) * inject_Z (m + 1)))%Q).
  { apply Qle_shift_div_l; [assumption|].
    setoid_replace (4 * (4 / (5 * (inject_Z m * inject_Z m)))
                    * (inject_Z (m + 1) * inject_Z (m + 1)))%Q
      with (16 * (inject_Z (m + 1) * inject_Z (m + 1))
            / (5 * (inject_Z m * inject_Z m)))%Q by (field; lra).
    apply Qle_shift_div_r; lra. }
  split; [|split].
  - apply Qlt_shift_div_l; [lra|]. rewrite Qmult_0_l. simpl.
    apply Qmult_lt_0_compat; apply Qlt_shift_div_l; lra.
  - unfold D1_default. rewrite Edx.
    setoid_replace (4 * ((2 / inject_Z m) ^ 2 / (5 * sigma) * sigma * (1 # 2)))%Q
      with ((1 # 2) * (4 * ((2 / inject_Z m) ^ 2 / (5 * sigma) * sigma)))%Q
      by ring.
    rewrite Edt.
    assert (0 < 4 / (5 * (inject_Z m * inject_Z m)))%Q
      by (apply Qlt_shift_div_l; lra).
    lra.
  - unfold D2_default. rewrite Edx.
    setoid_replace (4 * ((2 / inject_Z m) ^ 2 / (5 * sigma) * sigma * 1))%Q
      with (4 * ((2 / inject_Z m) ^ 2 / (5 * sigma) * sigma))%Q by ring.
    rewrite Edt. exact Hkey.
Qed.

Lemma explicit_solver_step_is_stable_witness :
  exists delta_t,
    explicit_solver_delta_t 150 (21 # 10000) = Ok delta_t /\
    (0 < delta_t)%Q /\
    (4 * (delta_t * (21 # 10000) * D1_default) <= delta_x2 150)%Q /\
    (4 * (delta_t * (21 # 10000) * D2_default) <= delta_x2 150)%Q.
Proof.
  apply (explicit_solver_step_is_stable 150 (21 # 10000)); [lia|reflexivity].
Defined.

(** ** Mass balance of the IMEX loop body *)

(** X22: on the grid of laplacian_discretization(m), m >= 2, with
    shape-preserving reaction terms, one pass of the loop body of
    imex_solver changes the sum of U by delta_t times the sum of
    f(Us, Vs) and the sum of V by delta_t times the sum of g(Us, Vs),
    where Us, Vs are the fields the implicit step returned: neither
    diffusion phase creates or removes mass. *)
Theorem imex_iteration_mass_balance (m : Z) (delta_t sigma D_1 D_2 : Q)
  (f g : reaction) :
  2 <= m -> shape_preserving f -> shape_preserving g ->
  exists A, laplacian_discretization m = Ok A /\
    forall U V s',
      imex_solver_iteration A delta_t sigma f g D_1 D_2 (U, V) s' ->
      exists Us Vs F G,
        backward_euler_diffusion_step U V A delta_t sigma D_1 D_2 (Us, Vs) /\
        f Us Vs = Ok F /\ g Us Vs = Ok G /\
        (vsum (fst s') == vsum U + delta_t * vsum F)%Q /\
        (vsum (snd s') == vsum V + delta_t * vsum G)%Q.
Proof.
  intros Hm Hf Hg. destruct (laplacian_returns m Hm) as [A EA]. exists A.
  split; [exact EA|]. intros U V s' ([Us Vs] & HBE & Hstep).
  cbn [fst snd] in *.
  pose proof HBE as (M1 & M2 & E1 & S1 & E2 & S2). cbn [fst snd] in *.
  destruct (solves_rows m A M1 _ _ _ U Us Hm EA E1 S1) as (LUs & _ & _).
  destruct (solves_rows m A M2 _ _ _ V Vs Hm EA E2 S2) as (LVs & _ & _).
  pose proof (solves_sum m A M1 _ _ _ U Us Hm EA E1 S1) as SUs.
  pose proof (solves_sum m A M2 _ _ _ V Vs Hm EA E2 S2) as SVs.
  destruct (f Us Vs) as [F|e] eqn:EF.
  2:{ unfold forward_euler_step, euler_update in Hstep. rewrite EF in Hstep.
      destruct (matvec (sp_scale (sigma * D1_default) A) Us); discriminate. }
  destruct (g Us Vs) as [G|e] eqn:EG.
  2:{ unfold forward_euler_step in Hstep. rewrite EG in Hstep.
      destruct (euler_update Us delta_t A sigma D1_default (f Us Vs));
        [|discriminate].
      cbn [bind] in Hstep. unfold euler_update in Hstep.
      destruct (matvec (sp_scale (sigma * D2_default) A) Vs); discriminate. }
  pose proof (Hf Us Vs F ltac:(congruence) EF) as HF.
  pose proof (Hg Us Vs G ltac:(congruence) EG) as HG.
  destruct (forward_euler_step_entries m A Us Vs F G delta_t sigma
              D1_default D2_default f g Hm EA LUs LVs EF
              ltac:(congruence) EG ltac:(congruence))
    as (U' & V' & E & _ & _ & _ & SU & SV).
  rewrite E in Hstep. injection Hstep as <-. cbn [fst snd].
  exists Us, Vs, F, G. split; [exact HBE|].
  split; [exact EF|]. split; [exact EG|]. split.
  - now rewrite SU, SUs.
  - now rewrite SV, SVs.
Qed.

Lemma imex_iteration_mass_balance_witness :
  exists A, laplacian_discretization 2 = Ok A /\
    forall U V s',
      imex_solver_iteration A (1 # 10) 1
        (f_alias 1 (7 # 2) 0 (899 # 1000) (-91 # 100) (-899 # 1000))
        (g_alias 1 (7 # 2) 0 (899 # 1000) (-91 # 100) (-899 # 1000))
        (1 # 2) 1 (U, V) s' ->
      exists Us Vs F G,
        backward_euler_diffusion_step U V A (1 # 10) 1 (1 # 2) 1 (Us, Vs) /\
        f_alias 1 (7 # 2) 0 (899 # 1000) (-91 # 100) (-899 # 1000) Us Vs
        = Ok F /\
        g_alias 1 (7 # 2) 0 (899 # 1000) (-91 # 100) (-899 # 1000) Us Vs
        = Ok G /\
        (vsum (fst s') == vsum U + (1 # 10) * vsum F)%Q /\
        (vsum (snd s') == vsum V + (1 # 10) * vsum G)%Q.
Proof.
  apply (imex_iteration_mass_balance 2 (1 # 10) 1 (1 # 2) 1);
    [lia | apply f_alias_shape | apply g_alias_shape].
Defined.
